(** * graphovl: a shallow embedding of [graphovl.py]

    The script scans the text of one actor source file with regular
    expressions, resolves macros and enums, locates function bodies by
    brace counting and emits a graph (nodes and coloured edges) through the
    [graphviz] package.

    Conventions of the model.
    - A Python [str] is a [list ascii]; a character is a code point below
      256, so the Unicode tables of [str.strip], [str.splitlines], [\s] and
      [\d] are cut down to that range.
    - [dict] objects are [gmap]s (only lookups and membership are used by the
      script), a [set] of strings is a list without repetition.
    - The [Digraph] object is the list of the [node] and [edge] statements
      appended to its body; what is printed, on either stream, is a list of
      messages, one per place that prints.
    - Exceptions, [os._exit] and the few inputs whose regular expression is
      assembled from source text with metacharacters are explicit outcomes.
    - [main] starts from the text of the source file.  Reading the file, the
      command line and the colour configuration stay outside; the
      configuration is taken to define every colour the script asks for.
    - [eval] is a parameter of the functions that evaluate a macro body. *)

From Stdlib Require Import ZArith List Ascii String Lia Bool.
From stdpp Require Import base option list gmap strings.
Import ListNotations.
Local Open Scope Z_scope.

(** ** Text *)

Abbreviation str := (list ascii).
Notation "$ s" := (list_ascii_of_string s) (at level 1, format "$ s").

Module Py.

(** Code point of a character. *)
Definition ord (c : ascii) : N := N_of_ascii c.

Definition in_range (lo hi : N) (c : ascii) : bool :=
  ((lo <=? ord c) && (ord c <=? hi))%N.

Definition ch_eqb (a b : ascii) : bool := Ascii.eqb a b.

(** [str.isspace] for one character (code points below 256). *)
Definition isspace (c : ascii) : bool :=
  in_range 9 13 c || in_range 28 32 c || (ord c =? 133)%N || (ord c =? 160)%N.

Definition isdigit (c : ascii) : bool := in_range 48 57 c.

Definition isalpha_ascii (c : ascii) : bool :=
  in_range 65 90 c || in_range 97 122 c.

Definition str_eqb (a b : str) : bool := bool_decide (a = b).

(** [x in l] for a list of strings. *)
Definition mem (x : str) (l : list str) : bool := bool_decide (x ∈ l).

Fixpoint startswith (p s : str) : bool :=
  match p, s with
  | [], _ => true
  | _ :: _, [] => false
  | a :: p', b :: s' => ch_eqb a b && startswith p' s'
  end.

Definition endswith (s suffix : str) : bool :=
  startswith (rev suffix) (rev s).

(** [s.find(sub)]: position of the first occurrence. *)
Fixpoint find (sub s : str) : option nat :=
  if startswith sub s then Some 0%nat
  else match s with
       | [] => None
       | _ :: s' => S <$> find sub s'
       end.

(** [sub in s] *)
Definition contains (sub s : str) : bool :=
  match find sub s with Some _ => true | None => false end.

(** [s.count(sub)], non-overlapping occurrences; [skip] characters of the
    occurrence just counted are still to be passed over. *)
Fixpoint count_go (sub s : str) (skip : nat) : nat :=
  match s with
  | [] => 0%nat
  | _ :: s' =>
      match skip with
      | S k => count_go sub s' k
      | O => if startswith sub s
             then S (count_go sub s' (length sub - 1))
             else count_go sub s' 0
      end
  end.

Definition count (sub s : str) : nat :=
  match sub with
  | [] => S (length s)
  | _ => count_go sub s 0
  end.

(** [s.split(sep)] for a non-empty separator: [cur] holds the field being
    read, reversed. *)
Fixpoint split_go (sep s : str) (skip : nat) (cur : str) : list str :=
  match s with
  | [] => [rev cur]
  | c :: s' =>
      match skip with
      | S k => split_go sep s' k cur
      | O => if startswith sep s
             then rev cur :: split_go sep s' (length sep - 1) []
             else split_go sep s' 0 (c :: cur)
      end
  end.

Definition split (sep s : str) : list str := split_go sep s 0 [].

(** [s.split(sep, 1)] *)
Definition split1 (sep s : str) : list str :=
  match find sep s with
  | Some i => [take i s; drop (i + length sep) s]
  | None => [s]
  end.

(** [s.replace(old, new)] *)
Fixpoint replace_go (old new s : str) (skip : nat) : str :=
  match s with
  | [] => []
  | c :: s' =>
      match skip with
      | S k => replace_go old new s' k
      | O => if startswith old s
             then new ++ replace_go old new s' (length old - 1)
             else c :: replace_go old new s' 0
      end
  end.

Definition replace (old new s : str) : str :=
  match old with
  | [] => new ++ flat_map (fun c => c :: new) s
  | _ => replace_go old new s 0
  end.

Fixpoint lstrip_by (p : ascii -> bool) (s : str) : str :=
  match s with
  | c :: s' => if p c then lstrip_by p s' else s
  | [] => []
  end.

Definition rstrip_by (p : ascii -> bool) (s : str) : str :=
  rev (lstrip_by p (rev s)).

(** [s.strip()] *)
Definition strip (s : str) : str := rstrip_by isspace (lstrip_by isspace s).

(** [s.strip(chars)] *)
Definition strip_chars (chars s : str) : str :=
  let p c := existsb (ch_eqb c) chars in
  rstrip_by p (lstrip_by p s).

(** Line boundaries of [str.splitlines]. *)
Definition is_linebreak (c : ascii) : bool :=
  in_range 10 13 c || in_range 28 30 c || (ord c =? 133)%N.

(** [s.splitlines(True)]: the line ends stay on the lines, and a carriage
    return followed by a line feed is one boundary. *)
Fixpoint splitlines_go (s : str) (cur : str) : list str :=
  match s with
  | [] => match cur with [] => [] | _ => [rev cur] end
  | c :: s' =>
      if is_linebreak c then
        match s' with
        | c2 :: s'' =>
            if (ord c =? 13)%N && (ord c2 =? 10)%N
            then rev (c2 :: c :: cur) :: splitlines_go s'' []
            else rev (c :: cur) :: splitlines_go s' []
        | [] => [rev (c :: cur)]
        end
      else splitlines_go s' (c :: cur)
  end.

Definition splitlines (s : str) : list str := splitlines_go s [].

End Py.

(** ** Integers as text *)

Inductive exn := ValueError | IndexError | KeyError.

(** A value or a raised exception. *)
Inductive res (A : Type) :=
| Val (a : A)
| Err (e : exn).
Arguments Val {A} a.
Arguments Err {A} e.

Definition res_bind {A B} (m : res A) (f : A -> res B) : res B :=
  match m with
  | Val a => f a
  | Err e => Err e
  end.

Module PyInt.
Import Py.

(** Value of a digit character in bases up to 36. *)
Definition digit_value (c : ascii) : option Z :=
  if isdigit c then Some (Z.of_N (ord c) - 48)
  else if in_range 97 122 c then Some (Z.of_N (ord c) - 87)
  else if in_range 65 90 c then Some (Z.of_N (ord c) - 55)
  else None.

Definition is_underscore (c : ascii) : bool := (ord c =? 95)%N.

(** Digits of [base] with single underscores between them; [prev_us] tells
    that the previous character was an underscore, [seen] that a digit was
    read.  Returns the value and the unread text. *)
Fixpoint digits (base : Z) (s : str) (acc : Z) (prev_us seen : bool)
  : option (Z * str) :=
  match s with
  | [] => if prev_us || negb seen then None else Some (acc, [])
  | c :: s' =>
      if is_underscore c then
        if prev_us then None else digits base s' acc true seen
      else
        match digit_value c with
        | Some d =>
            if d <? base then digits base s' (acc * base + d) false true
            else if prev_us || negb seen then None else Some (acc, s)
        | None => if prev_us || negb seen then None else Some (acc, s)
        end
  end.

Definition lower_is (x : N) (c : ascii) : bool :=
  (ord c =? x)%N || (ord c =? x - 32)%N.

(** The base and the text after a base prefix, for [int(s, 0)]; the flag
    says that the literal started with a zero that is no prefix, in which case
    only a zero value is accepted. *)
Definition detect_base (s : str) : Z * str * bool :=
  match s with
  | z :: x :: r =>
      if (ord z =? 48)%N then
        let skip_us r := match r with
                         | u :: r' => if is_underscore u then r' else r
                         | [] => r
                         end in
        if lower_is 120 x then (16, skip_us r, false)
        else if lower_is 111 x then (8, skip_us r, false)
        else if lower_is 98 x then (2, skip_us r, false)
        else (10, s, true)
      else (10, s, false)
  | [z] => if (ord z =? 48)%N then (10, s, true) else (10, s, false)
  | [] => (10, s, false)
  end.

(** [int(s)] when [base0] is [false], [int(s, 0)] when it is [true]: white
    space around, a sign, for base 0 a prefix that selects the base, then
    digits.  The limit that recent versions of Python put on the number of
    digits is left out. *)
Definition parse (base0 : bool) (s : str) : option Z :=
  let s := lstrip_by isspace s in
  let '(neg, s) :=
    match s with
    | c :: s' => if (ord c =? 43)%N then (false, s')
                 else if (ord c =? 45)%N then (true, s')
                 else (false, s)
    | [] => (false, s)
    end in
  let '(base, s, zero_only) :=
    if base0 then detect_base s else (10, s, false) in
  match s with
  | c :: _ =>
      if is_underscore c then None
      else
        match digits base s 0 false false with
        | Some (v, rest) =>
            if zero_only && negb (v =? 0) then None
            else match lstrip_by isspace rest with
                 | [] => Some (if neg then - v else v)
                 | _ => None
                 end
        | None => None
        end
  | [] => None
  end.

Definition int (s : str) : res Z :=
  match parse false s with Some v => Val v | None => Err ValueError end.

Definition int0 (s : str) : res Z :=
  match parse true s with Some v => Val v | None => Err ValueError end.

(** [str(n)] for an integer. *)
Fixpoint digits_of (fuel : nat) (n : Z) (acc : str) : str :=
  let acc' := ascii_of_N (Z.to_N (n mod 10) + 48) :: acc in
  match fuel with
  | O => acc'
  | S f => if n <? 10 then acc' else digits_of f (n / 10) acc'
  end.

Definition to_str (n : Z) : str :=
  if n <? 0 then $"-" ++ digits_of (Z.to_nat (- n)) (- n) []
  else digits_of (Z.to_nat n) n [].

End PyInt.

(** ** Regular expressions

    The backtracking semantics of Python's [re] for the constructs the script
    uses: character sets, sequence, alternation, greedy and lazy repetition
    and numbered groups.  The first alternative and the longer (greedy) or
    shorter (lazy) repetition is tried first; the continuation [k] is the
    rest of the pattern. *)

Module Re.
Import Py.

Inductive regex :=
| RChar (p : ascii -> bool)
| REps
| RSeq (a b : regex)
| RAlt (a b : regex)
| RStar (greedy : bool) (a : regex)
| RGroup (i : nat) (a : regex).

(** Text captured by each group; group [i] is at position [i - 1]. *)
Abbreviation caps := (list (option str)).

Fixpoint rmatch (r : regex) (s : str) (c : caps)
    (k : str -> caps -> option (caps * str)) {struct r} : option (caps * str) :=
  match r with
  | RChar p =>
      match s with
      | x :: s' => if p x then k s' c else None
      | [] => None
      end
  | REps => k s c
  | RSeq a b => rmatch a s c (fun s' c' => rmatch b s' c' k)
  | RAlt a b =>
      match rmatch a s c k with
      | Some r => Some r
      | None => rmatch b s c k
      end
  | RStar greedy a =>
      (fix loop (n : nat) (s : str) (c : caps) {struct n} :=
         match n with
         | O => k s c
         | S n' =>
             let again s' c' :=
               if (length s' <? length s)%nat then loop n' s' c' else None in
             if greedy then
               match rmatch a s c again with
               | Some r => Some r
               | None => k s c
               end
             else
               match k s c with
               | Some r => Some r
               | None => rmatch a s c again
               end
         end) (length s) s c
  | RGroup i a =>
      rmatch a s c
        (fun s' c' =>
           k s' (<[pred i := Some (take (length s - length s') s)]> c'))
  end.

(** A match object: [group()], the groups and the text after the match. *)
Record rematch := {
  m_group : str;
  m_groups : caps;
  m_rest : str
}.

(** [group(i)] for [i >= 1]; [None] when the group took no part. *)
Definition group (m : rematch) (i : nat) : option str :=
  default None (m_groups m !! pred i).

(** [pattern.match(s)]: a match at the start of [s]. *)
Definition match_ (r : regex) (ngroups : nat) (s : str) : option rematch :=
  match rmatch r s (replicate ngroups None) (fun s' c' => Some (c', s')) with
  | Some (c, rest) =>
      Some {| m_group := take (length s - length rest) s;
              m_groups := c;
              m_rest := rest |}
  | None => None
  end.

(** [pattern.finditer(s)]: matches from left to right, each search starting
    where the previous match ended. *)
Fixpoint finditer_go (r : regex) (ngroups : nat) (s : str) (skip : nat)
  : list rematch :=
  match skip with
  | S k =>
      match s with
      | [] => []
      | _ :: s' => finditer_go r ngroups s' k
      end
  | O =>
      match match_ r ngroups s with
      | Some m =>
          m :: match s with
               | [] => []
               | _ :: s' => finditer_go r ngroups s' (length (m_group m) - 1)
               end
      | None =>
          match s with
          | [] => []
          | _ :: s' => finditer_go r ngroups s' 0
          end
      end
  end.

Definition finditer (r : regex) (ngroups : nat) (s : str) : list rematch :=
  finditer_go r ngroups s 0.

(** [pattern.search(s)] *)
Definition search (r : regex) (ngroups : nat) (s : str) : option rematch :=
  head (finditer r ngroups s).

(** Pattern syntax. *)
Definition lit_char (c : ascii) : regex := RChar (ch_eqb c).

(** A text matched literally. *)
Definition lit (s : str) : regex :=
  foldr (fun c r => RSeq (lit_char c) r) REps s.

(** [a+], [a+?], [a*], [a*?], [a?] *)
Definition plus (a : regex) : regex := RSeq a (RStar true a).
Definition plus_lazy (a : regex) : regex := RSeq a (RStar false a).
Definition star (a : regex) : regex := RStar true a.
Definition star_lazy (a : regex) : regex := RStar false a.
Definition opt (a : regex) : regex := RAlt a REps.

Definition rseq (l : list regex) : regex := foldr RSeq REps l.

(** [[a-zA-Z_\d]] *)
Definition ident_char (c : ascii) : bool :=
  isalpha_ascii c || (ord c =? 95)%N || isdigit c.

(** [[^x]] *)
Definition not_char (x : ascii) (c : ascii) : bool := negb (ch_eqb x c).

(** [.] matches everything but a line feed. *)
Definition dot_char (c : ascii) : bool := negb (ord c =? 10)%N.

(** Characters with a meaning in a pattern. *)
Definition is_meta (c : ascii) : bool :=
  existsb (ch_eqb c) $".^$*+?{}[]\|()".

(** The pattern read off a text spliced into a pattern string: letters stand
    for themselves and a dot for any character of the line.  No result for a
    text with another metacharacter. *)
Definition spliced (s : str) : option regex :=
  if forallb (fun c => negb (is_meta c) || (ord c =? 46)%N) s
  then Some (rseq (map (fun c => if (ord c =? 46)%N then RChar dot_char
                                else lit_char c) s))
  else None.

End Re.

(** ** Outcomes of a run

    [dot] is the body of the [Digraph]: one entry per call of [dot.node] and
    [dot.edge], in order.  An edge is recorded with the key of the colour
    looked up in the configuration, which is what tells the kinds of edges
    apart.  [out] is what was printed, one entry per message. *)

Inductive color_key :=
| ActionFunc | ActionFuncInit | FuncCall | Callback | IndirectMember.

Inductive stmt :=
| Node (id : nat) (label : str)
| Edge (tail head : nat) (color : color_key).

Inductive msg :=
| MacroCallWarning (name : str) (args : list str)
| MacroExpandWarning (name : str)
| UnknownMacro (name : str)
| NoDefinitionWarning (func_name : str)
| NotFoundWarning (action_transition func_name : str)
| ParseIndexWarning (indexStr : str)
| NoActorStructure
| InvalidArrayActor
| InvalidArrayCall.

Record world := { dot : list stmt; out : list msg }.

Definition world0 : world := {| dot := []; out := [] |}.

Inductive outcome (A : Type) :=
| Ok (a : A) (w : world)
| Raise (e : exn) (w : world)
| Exit (w : world)
| Unmodelled.
Arguments Ok {A} a w.
Arguments Raise {A} e w.
Arguments Exit {A} w.
Arguments Unmodelled {A}.

Definition M (A : Type) : Type := world -> outcome A.

#[global] Instance res_ret : MRet res := fun A a => Val a.
#[global] Instance res_mbind : MBind res := fun A B f m => res_bind m f.
#[global] Instance res_fmap : FMap res := fun A B f m =>
  res_bind m (fun a => Val (f a)).

#[global] Instance M_ret : MRet M := fun A a w => Ok a w.
#[global] Instance M_bind : MBind M := fun A B f m w =>
  match m w with
  | Ok a w' => f a w'
  | Raise e w' => Raise e w'
  | Exit w' => Exit w'
  | Unmodelled => Unmodelled
  end.

Definition lift {A} (r : res A) : M A := fun w =>
  match r with
  | Val a => Ok a w
  | Err e => Raise e w
  end.

Definition print (m : msg) : M unit := fun w =>
  Ok tt {| dot := dot w; out := out w ++ [m] |}.

Definition emit (s : stmt) : M unit := fun w =>
  Ok tt {| dot := dot w ++ [s]; out := out w |}.

Definition os_exit {A} : M A := fun w => Exit w.

Definition unmodelled {A} : M A := fun _ => Unmodelled.

(** A [for] loop that threads the variables it assigns. *)
Fixpoint foldM {A S} (f : S -> A -> M S) (l : list A) (s : S) : M S :=
  match l with
  | [] => mret s
  | x :: l' => s' ← f s x; foldM f l' s'
  end.

Fixpoint foldR {A S} (f : S -> A -> res S) (l : list A) (s : S) : res S :=
  match l with
  | [] => mret s
  | x :: l' => s' ← f s x; foldR f l' s'
  end.

(** [enumerate(l)] *)
Definition enumerate {A} (l : list A) : list (nat * A) :=
  zip (seq 0 (length l)) l.

(** [l[i]] for an integer [i], counting from the end when negative. *)
Definition getitem {A} (l : list A) (i : Z) : res A :=
  let n := Z.of_nat (length l) in
  let j := if i <? 0 then i + n else i in
  if (0 <=? j) && (j <? n) then
    match l !! Z.to_nat j with
    | Some x => Val x
    | None => Err IndexError
    end
  else Err IndexError.

(** [l.index(x)] *)
Fixpoint list_index (x : str) (l : list str) : res nat :=
  match l with
  | [] => Err ValueError
  | y :: l' => if Py.str_eqb x y then Val 0%nat else S <$> list_index x l'
  end.

(** ** The script *)

Module Graphovl.
Import Py Re.

(** The first and the last element of the result of a [split], which is
    never empty. *)
Definition first (l : list str) : str := default [] (head l).
Definition final (l : list str) : str := default [] (last l).

(** [[a-zA-Z_\d]+\([^\)]*\)(\.[^\)]*\))?] *)
Definition call_shape : list regex :=
  [ plus (RChar ident_char); lit_char "("; star (RChar (not_char ")"));
    lit_char ")";
    opt (RGroup 1 (rseq [lit_char "."; star (RChar (not_char ")"));
                        lit_char ")"])) ].

Definition func_call_regexpr : regex := rseq call_shape.

(** [[a-zA-Z_\d]+\([^\)]*\)(\.[^\)]*\))? {[^}]] *)
Definition func_defs_regexpr : regex :=
  rseq (call_shape ++ [lit $" {"; RChar (not_char "}")]).

(** [macrosRegexpr]: the word [#define], [\s+], a name [[a-zA-Z_\d]+] (group
    1), optionally one name between parentheses (group 2), [\s+], a lazy
    [.+?] (group 3) and a terminator (group 4), which is a line feed, two
    slashes or a slash and a star. *)
Definition macrosRegexpr : regex :=
  rseq [ lit $"#define"; plus (RChar isspace);
        RGroup 1 (plus (RChar ident_char));
        opt (RGroup 2 (rseq [lit_char "("; plus (RChar ident_char);
                            lit_char ")"]));
        plus (RChar isspace);
        RGroup 3 (plus_lazy (RChar dot_char));
        RGroup 4 (RAlt (lit_char "010") (RAlt (lit $"//") (lit $"/*"))) ].

(** [enum\s+\{([^\}]+?)\}] *)
Definition enumsRegexpr : regex :=
  rseq [ lit $"enum"; plus (RChar isspace); lit_char "{";
        RGroup 1 (plus_lazy (RChar (not_char "}"))); lit_char "}" ].

(** [(this->[a-zA-Z_\d]+)\s*=\s*([a-zA-Z_\d]+);] *)
Definition indirectCallRegexpr : regex :=
  rseq [ RGroup 1 (rseq [lit $"this->"; plus (RChar ident_char)]);
        star (RChar isspace); lit_char "="; star (RChar isspace);
        RGroup 2 (plus (RChar ident_char)); lit_char ";" ].

(** [_SetupAction+\([^\)]*\)(\.[^\)]*\))?;] and its [_SetAction] twin. *)
Definition action_call_regexpr (stem : str) : regex :=
  rseq [ lit stem; plus (lit_char "n"); lit_char "(";
        star (RChar (not_char ")")); lit_char ")";
        opt (RGroup 1 (rseq [lit_char "."; star (RChar (not_char ")"));
                            lit_char ")"]));
        lit_char ";" ].

Definition setupaction_regexpr : regex := action_call_regexpr $"_SetupActio".
Definition setaction_regexpr : regex := action_call_regexpr $"_SetActio".

Record Macro := {
  macro_name : str;
  macro_params : list str;
  macro_body : str
}.

Record Enum := {
  enum_name : str;
  enum_value : Z
}.

Abbreviation MacrosContainer := (gmap str Macro).
Abbreviation EnumContainer := (gmap str Enum).

(** [EnumContainer.get] *)
Definition enums_get (enums : EnumContainer) (enumName : str) : option str :=
  match enums !! enumName with
  | Some e => Some (PyInt.to_str (enum_value e))
  | None => None
  end.

(** [EnumContainer.getDefault] *)
Definition getDefault (enums : EnumContainer) (enumName default : str) : str :=
  match enums !! enumName with
  | Some e => PyInt.to_str (enum_value e)
  | None => default
  end.

(** One turn of the inner loop of [getEnums] on the fragment [var]. *)
Definition enum_member (st : EnumContainer * Z) (var : str)
  : res (EnumContainer * Z) :=
  let '(enums, enumValue) := st in
  let var :=
    if contains $"/*" var && contains $"*/" var then
      let start := default 0%nat (find $"/*" var) in
      let end_ := (default 0%nat (find $"*/" var) + 2)%nat in
      take start var ++ drop end_ var
    else var in
  let var :=
    if contains $"//" var then take (default 0%nat (find $"//" var)) var
    else var in
  let var := strip var in
  if (length var =? 0)%nat then Val (enums, enumValue)
  else
    let exprList := split $"=" var in
    '(enumName, enumValue) ←
      (if (1 <? length exprList)%nat then
         let enumName := strip (first exprList) in
         let valueExpr := strip (default [] (exprList !! 1%nat)) in
         let valueExpr := getDefault enums valueExpr valueExpr in
         enumValue ← PyInt.int0 valueExpr;
         Val (enumName, enumValue)
       else Val (var, enumValue));
    Val (<[enumName := {| enum_name := enumName; enum_value := enumValue |}]>
           enums,
         enumValue + 1).

(** The members of one [enum] block, counted from 0. *)
Definition enum_block (enums : EnumContainer) (block : str)
  : res EnumContainer :=
  fst <$> foldR enum_member (split $"," block) (enums, 0).

(** [EnumContainer.getEnums] *)
Definition getEnums (contents : str) : res EnumContainer :=
  foldR (fun enums x => enum_block enums (default [] (group x 1)))
        (finditer enumsRegexpr 1 contents) ∅.

(** [MacrosContainer.getMacrosDefinitions] *)
Definition getMacrosDefinitions (contents : str) : MacrosContainer :=
  foldl (fun macros x =>
           let macroName := strip (default [] (group x 1)) in
           let macroParamsAux := group x 2 in
           let macroBody := strip (default [] (group x 3)) in
           let macroParams :=
             match macroParamsAux with
             | Some aux =>
                 map strip (split $"," (strip_chars $")" (strip_chars $"(" aux)))
             | None => []
             end in
           <[macroName := {| macro_name := macroName;
                             macro_params := macroParams;
                             macro_body := macroBody |}]> macros)
        ∅ (finditer macrosRegexpr 4 contents).

Section Evaluation.

(** [str(eval(text))] for the text of an expression; [None] stands for an
    [Exception] raised by the evaluation. *)
Variable py_eval : str -> option str.

(** [Macro.callMacro] *)
Definition callMacro (self : Macro) (argsList : list str)
    (enums : EnumContainer) : M (option str) :=
  macroBody ← lift (foldR (fun macroBody '(i, x) =>
                             arg ← getitem argsList (Z.of_nat i);
                             let arg := getDefault enums arg arg in
                             Val (replace x arg macroBody))
                          (enumerate (macro_params self)) (macro_body self));
  match py_eval macroBody with
  | Some value => mret (Some value)
  | None => print (MacroCallWarning (macro_name self) argsList);; mret None
  end.

(** [Macro.simpleExpand] *)
Definition simpleExpand (self : Macro) : M (option str) :=
  match py_eval (macro_body self) with
  | Some value => mret (Some value)
  | None => print (MacroExpandWarning (macro_name self));; mret None
  end.

(** [MacrosContainer.parseMacro] *)
Definition parseMacro (macros : MacrosContainer) (expr : str)
    (enums : EnumContainer) : M (option str) :=
  match match_ func_call_regexpr 1 expr with
  | Some macroCall =>
      match split $"(" (first (split $")" (m_group macroCall))) with
      | [macroName; macroArgs] =>
          match macros !! macroName with
          | None => print (UnknownMacro macroName);; mret None
          | Some macro =>
              let argsList := map strip (split $"," macroArgs) in
              callMacro macro argsList enums
          end
      | _ => lift (Err ValueError)
      end
  | None =>
      match macros !! expr with
      | Some macro => simpleExpand macro
      | None => mret None
      end
  end.


(** [capture_calls], [capture_call_names], [capture_definitions],
    [capture_definition_names] *)
Definition capture_calls (content : str) : list str :=
  map m_group (finditer func_call_regexpr 1 content).

Definition capture_call_names (content : str) : list str :=
  map (fun x => first (split $"(" (m_group x)))
      (finditer func_call_regexpr 1 content).

Definition capture_definitions (content : str) : list str :=
  map m_group (finditer func_defs_regexpr 1 content).

Definition capture_definition_names (content : str) : list str :=
  map (fun x => first (split $"(" (m_group x)))
      (finditer func_defs_regexpr 1 content).

(** [capture_setupaction_call_arg] ([arg = 1]) and
    [capture_setaction_call_arg] ([arg = 2]): the transition is the argument
    at position [arg] of each call, kept once. *)
Definition capture_action_call_arg (r : regex) (arg : nat) (content : str)
  : res (list str) :=
  foldR (fun transitionList x =>
           a ← getitem (split $"," (m_group x)) (Z.of_nat arg);
           let func := strip (first (split $");" (strip a))) in
           Val (if mem func transitionList then transitionList
                else transitionList ++ [func]))
        (finditer r 1 content) [].

Definition capture_setupaction_call_arg : str -> res (list str) :=
  capture_action_call_arg setupaction_regexpr 1.

Definition capture_setaction_call_arg : str -> res (list str) :=
  capture_action_call_arg setaction_regexpr 2.

(** [definition_by_name] *)
Definition definition_by_name (content name : str) : option str :=
  (fun definition => strip (first (split $"{" definition))) <$>
  List.find (fun definition => str_eqb name (first (split $"(" definition)))
            (capture_definitions content).

(** [index_of_func], on the global [func_names] *)
Definition index_of_func (func_names : list str) (func_name : str) : res nat :=
  list_index func_name func_names.

(** [setup_func_definitions]: the value of the global [func_definitions]
    afterwards. *)
Definition setup_func_definitions (content : str) (func_names : list str)
  : M (list str) :=
  foldM (fun func_definitions func_name =>
           match definition_by_name content func_name with
           | None => print (NoDefinitionWarning func_name);;
                     mret func_definitions
           | Some definition =>
               mret (func_definitions ++ [definition ++ $" {"])
           end)
        func_names [].

(** [setup_line_numbers]: the value of the global
    [line_numbers_of_functions] afterwards.  A line number is appended for
    every pair of a line and a function whose signature line occurs in it. *)
Definition setup_line_numbers (content : str)
    (func_names func_definitions : list str) : res (list nat) :=
  foldR (fun line_numbers '(i, line) =>
           foldR (fun line_numbers func_name =>
                    idx ← index_of_func func_names func_name;
                    definition ← getitem func_definitions (Z.of_nat idx);
                    Val (if contains (final (split ["010"%char] definition)) line
                         then line_numbers ++ [S i]
                         else line_numbers))
                 func_names line_numbers)
        (enumerate (splitlines content)) [].

(** The loop of [get_code_body] over the lines after the signature:
    [bracket_count] is the running count and [code] the text kept so far. *)
Fixpoint scan_body (lines : list str) (bracket_count : Z) (code : str) : str :=
  match lines with
  | [] => code
  | raw_line :: rest =>
      let raw_line :=
        if contains $"//" raw_line
        then take (default 0%nat (find $"//" raw_line)) raw_line
        else raw_line in
      let bracket_count :=
        bracket_count + Z.of_nat (count $"{" raw_line)
                      - Z.of_nat (count $"}" raw_line) in
      if bracket_count =? 0 then code
      else scan_body rest bracket_count (code ++ raw_line)
  end.

(** [get_code_body] *)
Definition get_code_body (func_names : list str) (line_numbers : list nat)
    (content funcname : str) : res str :=
  idx ← index_of_func func_names funcname;
  line_num ← getitem line_numbers (Z.of_nat idx);
  if (line_num <=? 0)%nat then Val []
  else Val (scan_body (drop line_num (splitlines content)) 1 []).

(** [getIndirectMemberFuncs]; the set is kept as a list without repetition. *)
Definition getIndirectMemberFuncs (func_names : list str) (code_body : str)
  : list str :=
  foldl (fun members x =>
           let member := default [] (group x 1) in
           let value := default [] (group x 2) in
           if str_eqb member $"this->actionFunc" then members
           else if mem value func_names && negb (mem member members)
                then members ++ [member]
                else members)
        [] (finditer indirectCallRegexpr 2 code_body).

(** [set.update] *)
Definition set_update (s new : list str) : list str :=
  foldl (fun s x => if mem x s then s else s ++ [x]) s new.

(** [action_var_values_in_func].  The pattern is assembled from
    [action_var]; see [Re.spliced]. *)
Definition action_var_values_in_func (code_body action_var : str)
    (macros : MacrosContainer) (enums : EnumContainer) : M (list str) :=
  if negb (contains action_var code_body) then mret []
  else
    match spliced action_var with
    | None => unmodelled
    | Some var_re =>
        let regex :=
          RGroup 1 (rseq [var_re; lit $" = "; star (RGroup 2 (RChar dot_char))]) in
        foldM (fun transition x =>
                 part ← lift (getitem (split $" = " (m_group x)) 1);
                 let index := strip (first (split $";" part)) in
                 macroValue ← parseMacro macros index enums;
                 let index :=
                   match macroValue with
                   | Some v => v
                   | None =>
                       match enums_get enums index with
                       | Some v => v
                       | None => index
                       end
                   end in
                 mret (if mem index transition then transition
                       else transition ++ [index]))
              (finditer regex 2 code_body) []
    end.

(** [getIndirectFunctionsInFunc] *)
Definition getIndirectFunctionsInFunc (code_body : str)
    (indirectMemberFuncs : list str) (macros : MacrosContainer)
    (enums : EnumContainer) (removeList : list str) : M (list str) :=
  foldM (fun indirectFunctions member =>
           names ← action_var_values_in_func code_body member macros enums;
           mret (foldl (fun indirectFunctions name =>
                          if negb (mem name indirectFunctions)
                             && negb (mem name removeList)
                          then indirectFunctions ++ [name]
                          else indirectFunctions)
                       indirectFunctions names))
        indirectMemberFuncs [].

(** [addFunctionTransitionToGraph] *)
Definition addFunctionTransitionToGraph (func_names : list str) (index : nat)
    (func_name action_transition : str) : M unit :=
  match index_of_func func_names action_transition with
  | Err _ => print (NotFoundWarning action_transition func_name)
  | Val funcIndex =>
      emit (Node index func_name);;
      emit (Node funcIndex action_transition);;
      emit (Edge index funcIndex
              (if endswith func_name $"_Init" then ActionFuncInit
               else ActionFunc))
  end.

(** [addCallNamesToGraph]; the loop threads the set [seen]. *)
Definition addCallNamesToGraph (func_names : list str) (index : nat)
    (code_body : str) (removeList : list str) (setupAction rawActorFunc : bool)
  : M unit :=
  foldM (fun seen call =>
           if negb (mem call func_names) then mret seen
           else if mem call seen then mret seen
           else if mem call removeList then mret seen
           else if setupAction && (contains $"_SetupAction" call
                                   || contains $"_SetAction" call)
           then mret seen
           else
             (if rawActorFunc then
                name ← lift (getitem func_names (Z.of_nat index));
                emit (Node index name)
              else mret tt);;
             calledFuncIndex ← lift (index_of_func func_names call);
             emit (Node calledFuncIndex call);;
             emit (Edge index calledFuncIndex FuncCall);;
             mret (call :: seen))
        (capture_call_names code_body) [];;
  mret tt.

(** [addCallbacksToGraph]; [seen] is written and never read. *)
Definition addCallbacksToGraph (func_names : list str) (index : nat)
    (code_body : str) (transitionList : list str) : M unit :=
  foldM (fun seen call_with_arguments =>
           let call_with_arguments :=
             replace $" " [] (replace ["010"%char] [] call_with_arguments) in
           match split1 $"(" call_with_arguments with
           | [name; arguments] =>
               let argumentList := map strip (split $"," arguments) in
               foldM (fun seen callback =>
                        if mem callback transitionList then mret seen
                        else
                          calledFuncIndex ←
                            lift (index_of_func func_names callback);
                          emit (Node calledFuncIndex callback);;
                          emit (Edge index calledFuncIndex Callback);;
                          mret (callback :: seen))
                     (List.filter (fun x => mem x argumentList) func_names) seen
           | _ => lift (Err ValueError)
           end)
        (capture_calls code_body) [];;
  mret tt.

(** [addIndirectFunctionsToGraph] *)
Definition addIndirectFunctionsToGraph (func_names : list str) (index : nat)
    (indirectFunctions : list str) : M unit :=
  foldM (fun seen call =>
           if negb (mem call func_names) then mret seen
           else if mem call seen then mret seen
           else
             name ← lift (getitem func_names (Z.of_nat index));
             emit (Node index name);;
             calledFuncIndex ← lift (index_of_func func_names call);
             emit (Node calledFuncIndex call);;
             emit (Edge index calledFuncIndex IndirectMember);;
             mret (call :: seen))
        indirectFunctions [];;
  mret tt.

(** One turn of the first loop of [main] over the functions: the node of an
    [_Init], [_Destroy], [_Update] or [_Draw] function, and the prefix taken
    from an [_Init] function. *)
Definition lifecycle_step (func_prefix : str) (x : nat * str) : M str :=
  let '(index, func_name) := x in
  if endswith func_name $"_Init" then
    emit (Node index func_name);;
    mret (first (split $"_" func_name))
  else if endswith func_name $"_Destroy"
          || endswith func_name $"_Update"
          || endswith func_name $"_Draw"
  then emit (Node index func_name);; mret func_prefix
  else mret func_prefix.

Definition register_lifecycle (func_names : list str) : M str :=
  foldM lifecycle_step (enumerate func_names) [].

(** What [main] has worked out when it starts to emit edges. *)
Record analysis := {
  func_names : list str;
  removeList : list str;
  loners : bool;
  macros : MacrosContainer;
  enums : EnumContainer;
  setupAction : bool;
  setAction : bool;
  arrayActorFunc : bool;
  rawActorFunc : bool;
  action_functions : list str;
  action_var : str;
  functionBodies : gmap str str;
  indirectMemberFuncs : list str
}.

Definition actionIdentifier : str := $"this->actionFunc".

(** The transitions of one function, before the removal list is applied. *)
Definition transitions_of (a : analysis) (code_body : str) : M (list str) :=
  if setupAction a then lift (capture_setupaction_call_arg code_body)
  else if setAction a then lift (capture_setaction_call_arg code_body)
  else if arrayActorFunc a then
    transitionIndexes ←
      action_var_values_in_func code_body (action_var a) (macros a) (enums a);
    foldM (fun transitionList indexStr =>
             match PyInt.int indexStr with
             | Err _ => print (ParseIndexWarning indexStr);;
                        mret transitionList
             | Val indexTemp =>
                 t ← lift (getitem (action_functions a) indexTemp);
                 mret (transitionList ++ [t])
             end)
          transitionIndexes []
  else if rawActorFunc a then
    action_var_values_in_func code_body actionIdentifier (macros a) (enums a)
  else mret [].

(** The edges of one function: the rest of a turn of the main loop of
    [main], after the node of a loner. *)
Definition function_edges (a : analysis) (index : nat) (func_name : str)
  : M unit :=
  code_body ← lift (match functionBodies a !! func_name with
                    | Some b => Val b
                    | None => Err KeyError
                    end);
  transitionList ← transitions_of a code_body;
  let transitionList :=
    List.filter (fun x => negb (mem x (removeList a))) transitionList in
  foldM (fun _ action_transition =>
           addFunctionTransitionToGraph (func_names a) index func_name
             action_transition)
        transitionList tt;;
  addCallNamesToGraph (func_names a) index code_body (removeList a)
    (setupAction a) (rawActorFunc a);;
  addCallbacksToGraph (func_names a) index code_body transitionList;;
  indirectFunctions ←
    getIndirectFunctionsInFunc code_body (indirectMemberFuncs a) (macros a)
      (enums a) (removeList a);
  addIndirectFunctionsToGraph (func_names a) index indirectFunctions.

(** One turn of the main loop of [main]. *)
Definition process_function (a : analysis) (index : nat) (func_name : str)
  : M unit :=
  if mem func_name (removeList a) then mret tt
  else
    (if loners a then emit (Node index func_name) else mret tt);;
    function_edges a index func_name.

(** The removal list [main] works with. *)
Definition effective_removeList (remove : option (list str)) : list str :=
  default [] remove ++ [$"NULL"].

(** The array of action functions and the variable that indexes it, for an
    array based actor. *)
Definition array_actor (action_func_type : str) (match_obj : rematch)
    (contents : str) : M (list str * str) :=
  match search (rseq [lit action_func_type; lit_char " ";
                     RGroup 1 (plus (RChar dot_char)); lit $"[] = {";
                     RGroup 2 (star_lazy (RChar (not_char "}"))); lit $"};"])
               2 contents with
  | None => print InvalidArrayActor;; os_exit
  | Some action_func_array =>
      let action_functions :=
        map strip (split $"," (default [] (group action_func_array 2))) in
      let action_func_array_name := strip (default [] (group match_obj 1)) in
      match spliced action_func_array_name with
      | None => unmodelled
      | Some name_re =>
          match search (rseq [name_re; lit_char "[";
                             RGroup 1 (star (RChar dot_char)); lit $"]("])
                       1 contents with
          | None => print InvalidArrayCall;; os_exit
          | Some actionVarMatch =>
              mret (action_functions,
                    strip (default [] (group actionVarMatch 1)))
          end
      end
  end.

(** The part of [main] between the two loops over the functions: which
    kind of actor the file holds, the array of an array based actor, the body
    of every function and the members that hold a function. *)
Definition analyse (loners_opt : bool) (removeList : list str) (contents : str)
    (func_names : list str) (line_numbers : list nat)
    (macros : MacrosContainer) (enums : EnumContainer) (func_prefix : str)
  : M analysis :=
  let action_func_type := func_prefix ++ $"ActionFunc" in
  let match_obj :=
    search (rseq [lit action_func_type; lit_char " ";
                 RGroup 1 (plus (RChar dot_char)); lit $"[] = {"])
           1 contents in
  let setupAction := mem (func_prefix ++ $"_SetupAction") func_names in
  let setAction := mem (func_prefix ++ $"_SetAction") func_names in
  let arrayActorFunc := bool_decide (is_Some match_obj) in
  let rawActorFunc := contains actionIdentifier contents in
  (if negb setupAction && negb setAction && negb arrayActorFunc
      && negb rawActorFunc
   then print NoActorStructure;; os_exit
   else mret tt);;
  '(action_functions, action_var) ←
    match match_obj with
    | Some m => array_actor action_func_type m contents
    | None => mret ([], [])
    end;
  '(functionBodies, indirectMemberFuncs) ←
    foldM (fun '(functionBodies, indirectMemberFuncs) func_name =>
             code_body ←
               lift (get_code_body func_names line_numbers contents func_name);
             mret (<[func_name := code_body]> functionBodies,
                   set_update indirectMemberFuncs
                     (getIndirectMemberFuncs func_names code_body)))
          func_names (∅, []);
  mret {| func_names := func_names; removeList := removeList;
          loners := loners_opt; macros := macros; enums := enums;
          setupAction := setupAction; setAction := setAction;
          arrayActorFunc := arrayActorFunc; rawActorFunc := rawActorFunc;
          action_functions := action_functions; action_var := action_var;
          functionBodies := functionBodies;
          indirectMemberFuncs := indirectMemberFuncs |}.

(** The second loop of [main] over the functions. *)
Definition emit_edges (a : analysis) : M unit :=
  foldM (fun _ '(index, func_name) => process_function a index func_name)
        (enumerate (func_names a)) tt.

(** [main], from the text of the source file on; [loners_opt] and [remove]
    are the options [--loners] and [--remove]. *)
Definition main (loners_opt : bool) (remove : option (list str))
    (contents : str) : M unit :=
  let removeList := effective_removeList remove in
  let func_names := capture_definition_names contents in
  func_definitions ← setup_func_definitions contents func_names;
  line_numbers ← lift (setup_line_numbers contents func_names func_definitions);
  let macros := getMacrosDefinitions contents in
  enums ← lift (getEnums contents);
  func_prefix ← register_lifecycle func_names;
  a ← analyse loners_opt removeList contents func_names line_numbers macros
        enums func_prefix;
  emit_edges a.

(** The graph a run ends with, if it ends normally. *)
Definition graph_of (o : outcome unit) : option (list stmt) :=
  match o with
  | Ok _ w => Some (dot w)
  | _ => None
  end.

End Evaluation.

(** An evaluator for closed examples: the text of an integer literal
    evaluates to that integer; the examples evaluate nothing else. *)
Definition eval_literal (s : str) : option str :=
  PyInt.to_str <$> PyInt.parse true s.

(** ** What a computation adds to the graph

    [adds P w w'] says that [w'] carries the statements of [w] followed by
    new ones that all satisfy [P]; [spec Q P m] says that every normal
    outcome of [m] returns a value satisfying [Q] and adds only statements
    satisfying [P]. *)

Definition adds (P : stmt -> Prop) (w w' : world) : Prop :=
  exists new, dot w' = dot w ++ new /\ Forall P new.

Definition spec {A} (Q : A -> Prop) (P : stmt -> Prop) (m : M A) : Prop :=
  forall w a w', m w = Ok a w' -> Q a /\ adds P w w'.


(** A computation that returns without conditions on what it adds beyond
    [P]; used with any [P] for the computations that only print. *)
Definition quiet (P : stmt -> Prop) {A} (m : M A) : Prop :=
  spec (fun _ => True) P m.

Definition NULL : str := $"NULL".

(** An edge that is no callback edge does not lead to a function called
    [NULL]. *)
Definition good (func_names : list str) (s : stmt) : Prop :=
  match s with
  | Edge _ head color => color <> Callback -> func_names !! head <> Some NULL
  | Node _ _ => True
  end.

(** The functions [main] gives a node to before it looks for edges. *)
Definition is_lifecycle (func_name : str) : bool :=
  endswith func_name $"_Init" || endswith func_name $"_Update"
  || endswith func_name $"_Draw" || endswith func_name $"_Destroy".

(** A physical line seen as the text before its comment and, when it has one,
    the comment that follows the two slashes. *)
Definition render_line (l : str * option str) : str :=
  match l.2 with
  | Some comment => l.1 ++ $"//" ++ comment
  | None => l.1
  end.

(** Opening minus closing braces of a text. *)
Definition brace_delta (code : str) : Z :=
  Z.of_nat (count $"{" code) - Z.of_nat (count $"}" code).

(** The position of the first line at which the count of open braces,
    [bracket_count] before the lines, is back to zero; the number of lines
    when there is none. *)
Fixpoint closing_line (codes : list str) (bracket_count : Z) : nat :=
  match codes with
  | [] => 0%nat
  | code :: rest =>
      if bracket_count + brace_delta code =? 0 then 0%nat
      else S (closing_line rest (bracket_count + brace_delta code))
  end.

(** ** Enum blocks as lists of members

    A block is a list of members separated by commas.  A member is a name,
    or a name, an equals sign and the text of a value; white space may
    surround every part, and a fragment of white space alone (as after a
    trailing comma) declares nothing. *)

Inductive member :=
| Blank (ws : str)
| Plain (pre name post : str)
| Assigned (pre name ws1 ws2 text post : str).









(** The nodes of the lifecycle functions, in the order of the functions. *)
Definition lifecycle_nodes (func_names : list str) : list stmt :=
  map (fun x => Node x.1 x.2)
      (List.filter (fun x => is_lifecycle x.2) (enumerate func_names)).

(** ** Source texts of the examples *)

(** A text given line by line; every line ends with a line feed. *)
Definition text (lines : list string) : str :=
  concat (map (fun l => $l ++ ["010"%char]) lines).

Local Open Scope string_scope.

(** An actor that sets [this->actionFunc] and passes [FooWait] as an argument
    of two calls. *)
Definition src_callbacks : str := text [
  "void Foo_Init(Actor* this) {";
  "    Sched(FooWait, this);";
  "    Sched(FooWait, that);";
  "    this->actionFunc = NULL;";
  "}";
  "void FooWait(Actor* this) {";
  "}" ].

(** The same actor with [FooWait] as its first action. *)
Definition src_transition : str := text [
  "void Foo_Init(Actor* this) {";
  "    Sched(FooWait, this);";
  "    this->actionFunc = FooWait;";
  "}";
  "void FooWait(Actor* this) {";
  "    this->actionFunc = NULL;";
  "}" ].

(** An actor with a function that nothing refers to. *)
Definition src_loner : str := text [
  "void Foo_Init(Actor* this) {";
  "    this->actionFunc = NULL;";
  "}";
  "void FooHelper(Actor* this) {";
  "    x = 1;";
  "}" ].

(** An array based actor whose [Foo_Init] assigns [index] to the variable
    that selects the action. *)
Definition src_array (index : string) : str := text [
  "static FooActionFunc sActionFuncs[] = { FooWait, FooAttack };";
  "void Foo_Init(Actor* this) {";
  "    this->actionVar = " ++ index ++ ";";
  "}";
  "void FooWait(Actor* this) {";
  "}";
  "void FooAttack(Actor* this) {";
  "}";
  "void Foo_Update(Actor* this) {";
  "    sActionFuncs[this->actionVar](this);";
  "}" ].

(** An actor whose first signature holds a brace in a comment, so that the
    text kept for it occurs on no line. *)
Definition src_lost_signature : str := text [
  "void Foo_Init(int a /*{*/) {";
  "    this->actionFunc = Foo_Wait;";
  "}";
  "void Foo_Wait(void) {";
  "    x = 1;";
  "}" ].

(** An actor whose first action is given by a call inside a call. *)
Definition src_nested_call : str := text [
  "void Foo_Init(Actor* this) {";
  "    this->actionFunc = F(G(1));";
  "}" ].

(** A function with a brace in the comment of a line. *)
Definition src_comment_brace : str := text [
  "void Foo_Init(Actor* this) {";
  "    if (x) {";
  "        y = 1;";
  "    }  // closing if {";
  "    z = 2;";
  "}";
  "void Foo_Update(Actor* this) {";
  "}" ].

Local Close Scope string_scope.



(** The lines of [src_comment_brace] after the signature of [Foo_Init],
    each with its comment apart. *)
Definition lines_comment_brace : list (str * option str) :=
  [ (text ["    if (x) {"%string], None);
    (text ["        y = 1;"%string], None);
    ($"    }  ", Some (text [" closing if {"%string]));
    (text ["    z = 2;"%string], None);
    (text ["}"%string], None);
    (text ["void Foo_Update(Actor* this) {"%string], None);
    (text ["}"%string], None) ].

(** ** Decimal digits *)

(** The text has no character [x]. *)
Definition lacks (x : ascii) (s : str) : bool := forallb (not_char x) s.




(** ** Statements about whole graphs *)

(** A statement a run may write, given the function names and the removal
    list: a node carries the name of the function at its position; an edge
    joins two positions of functions, its source is not removed, its target
    is not removed unless it is a callback edge, and the colour of a
    transition tells whether the source is an [_Init] function. *)
Definition sound (func_names removeList : list str) (s : stmt) : Prop :=
  match s with
  | Node id label => func_names !! id = Some label
  | Edge tail head color =>
      (exists src, func_names !! tail = Some src /\ mem src removeList = false
                   /\ match color with
                      | ActionFuncInit => endswith src $"_Init" = true
                      | ActionFunc => endswith src $"_Init" = false
                      | _ => True
                      end) /\
      (exists dst, func_names !! head = Some dst
                   /\ (color <> Callback -> mem dst removeList = false))
  end.

(** [hoare I Q m]: from a graph that satisfies [I], a normal outcome of [m]
    returns a value that satisfies [Q] and leaves a graph that satisfies
    [I]. *)
Definition hoare {A} (I : list stmt -> Prop) (Q : A -> Prop) (m : M A)
  : Prop :=
  forall w a w', I (dot w) -> m w = Ok a w' -> Q a /\ I (dot w').

(** The edges of a graph. *)
Definition edges (g : list stmt) : list stmt :=
  List.filter (fun s => match s with Edge _ _ _ => true | Node _ _ => false end)
              g.

(** Position [id] is an end of an edge of the graph. *)
Definition touched (g : list stmt) (id : nat) : Prop :=
  exists tail head color,
    In (Edge tail head color) g /\ (tail = id \/ head = id).

(** Every node of the graph is a lifecycle function or an end of an edge. *)
Definition lazy_nodes (g : list stmt) : Prop :=
  forall id label,
    In (Node id label) g -> is_lifecycle label = true \/ touched g id.

#[global] Instance color_key_eq_dec : EqDecision color_key.
Proof. solve_decision. Defined.

(** The edges of one colour. *)
Definition with_color (c : color_key) (g : list stmt) : list stmt :=
  List.filter (fun s => match s with
                        | Edge _ _ c' => bool_decide (c' = c)
                        | Node _ _ => false
                        end) g.

(** [writes R m]: a normal outcome of [m] appends statements to the graph,
    and [R] holds of the value returned and of what was appended. *)
Definition writes {A} (R : A -> list stmt -> Prop) (m : M A) : Prop :=
  forall w a w', m w = Ok a w' -> exists new, dot w' = dot w ++ new /\ R a new.

(** What one function contributes to the graph: its edges start at
    [index]; no call edge and no indirect-member edge occurs twice; no
    callback edge doubles a transition edge. *)
Definition block_ok (index : nat) (new : list stmt) : Prop :=
  (forall tail head color, In (Edge tail head color) new -> tail = index) /\
  NoDup (with_color FuncCall new) /\
  NoDup (with_color IndirectMember new) /\
  (forall tail head, In (Edge tail head Callback) new ->
     ~ In (Edge tail head ActionFunc) new /\
     ~ In (Edge tail head ActionFuncInit) new).

(** The same for a graph whose edges start at the positions [tails]. *)
Definition graph_ok (tails : list nat) (g : list stmt) : Prop :=
  (forall tail head color, In (Edge tail head color) g -> In tail tails) /\
  NoDup (with_color FuncCall g) /\
  NoDup (with_color IndirectMember g) /\
  (forall tail head, In (Edge tail head Callback) g ->
     ~ In (Edge tail head ActionFunc) g /\
     ~ In (Edge tail head ActionFuncInit) g).

(** The edges of [g] start at [index] and have one of the colours [cs]. *)
Definition only (cs : list color_key) (index : nat) (g : list stmt) : Prop :=
  forall tail head color,
    In (Edge tail head color) g -> tail = index /\ In color cs.

(** The edges of [s] start at [index], have a colour of [cs] and lead to a
    function whose name satisfies [T]. *)
Definition leads (fn : list str) (index : nat) (cs : list color_key)
    (T : str -> Prop) (s : stmt) : Prop :=
  match s with
  | Edge tail head color =>
      tail = index /\ In color cs /\ exists x, fn !! head = Some x /\ T x
  | Node _ _ => True
  end.

(** [m] appends statements whose nodes are lifecycle functions or ends of
    edges. *)
Definition wlazy_of {A} (m : M A) : Prop :=
  writes (fun _ n => lazy_nodes n) m.

(** ** What a group of a pattern can capture *)

(** Every character the pattern can read satisfies [p]. *)
Fixpoint all_chars (p : ascii -> bool) (r : regex) : Prop :=
  match r with
  | RChar q => forall c, q c = true -> p c = true
  | REps => True
  | RSeq a b | RAlt a b => all_chars p a /\ all_chars p b
  | RStar _ a => all_chars p a
  | RGroup _ a => all_chars p a
  end.

(** The groups stored at position [i] read only characters that satisfy
    [p]. *)
Fixpoint group_ok (i : nat) (p : ascii -> bool) (r : regex) : Prop :=
  match r with
  | RChar _ | REps => True
  | RSeq a b | RAlt a b => group_ok i p a /\ group_ok i p b
  | RStar _ a => group_ok i p a
  | RGroup j a => group_ok i p a /\ (pred j = i -> all_chars p a)
  end.

(** The text stored at position [i], if any, is made of characters that
    satisfy [p]. *)
Definition caps_ok (i : nat) (p : ascii -> bool) (c : caps) : Prop :=
  forall t, c !! i = Some (Some t) -> forallb p t = true.
End Graphovl.

Import Py Re Graphovl.

(** * Properties *)

(** ** Rules for [spec] *)

Section Rules.
Context {A B : Type}.
Implicit Types (P : stmt -> Prop).

Lemma adds_refl P w : adds P w w.
Proof. exists []. split; [by rewrite app_nil_r | constructor]. Qed.

Lemma adds_trans P w1 w2 w3 : adds P w1 w2 -> adds P w2 w3 -> adds P w1 w3.
Proof.
  intros [n1 [E1 F1]] [n2 [E2 F2]]. exists (n1 ++ n2). split.
  - rewrite E2, E1. by rewrite app_assoc.
  - apply Forall_app; auto.
Qed.

Lemma adds_incl P w w' x : adds P w w' -> In x (dot w) -> In x (dot w').
Proof. intros [n [E _]] Hx. rewrite E. apply in_or_app. by left. Qed.

Lemma bind_ok (m : M A) (f : A -> M B) w b w' :
  (m ≫= f) w = Ok b w' -> exists a w1, m w = Ok a w1 /\ f a w1 = Ok b w'.
Proof.
  unfold mbind, M_bind. destruct (m w) as [a w1| | |] eqn:E; try discriminate.
  intros H. by exists a, w1.
Qed.

Lemma spec_ret (Q : A -> Prop) P a : Q a -> spec Q P (mret a).
Proof.
  intros Ha w a' w' H. injection H as <- <-. split; [done | apply adds_refl].
Qed.

Lemma spec_bind (Q : A -> Prop) (Q' : B -> Prop) P (m : M A) (f : A -> M B) :
  spec Q P m -> (forall a, Q a -> spec Q' P (f a)) -> spec Q' P (m ≫= f).
Proof.
  intros Hm Hf w b w' H. apply bind_ok in H as (a & w1 & H1 & H2).
  destruct (Hm _ _ _ H1) as [Ha Hw]. destruct (Hf a Ha _ _ _ H2) as [Hb Hw'].
  split; [done | by eapply adds_trans].
Qed.

Lemma spec_weaken (Q Q' : A -> Prop) P (m : M A) :
  spec Q P m -> (forall a, Q a -> Q' a) -> spec Q' P m.
Proof. intros Hm HQ w a w' H. destruct (Hm _ _ _ H). auto. Qed.

Lemma spec_lift (Q : A -> Prop) P (r : res A) :
  (forall a, r = Val a -> Q a) -> spec Q P (lift r).
Proof.
  intros Hr w a w' H. unfold lift in H. destruct r; [|discriminate].
  injection H as <- <-. split; [auto | apply adds_refl].
Qed.

Lemma spec_exit (Q : A -> Prop) P : spec Q P os_exit.
Proof. intros w a w' H. discriminate. Qed.

Lemma spec_unmodelled (Q : A -> Prop) P : spec Q P unmodelled.
Proof. intros w a w' H. discriminate. Qed.

End Rules.

Lemma spec_adds {A} (Q : A -> Prop) (P : stmt -> Prop) (m : M A) w a w' :
  spec Q P m -> m w = Ok a w' -> adds P w w'.
Proof. intros Hm H. by destruct (Hm _ _ _ H). Qed.

Lemma spec_print (Q : unit -> Prop) P m : Q tt -> spec Q P (print m).
Proof.
  intros HQ w [] w' H. injection H as <-. split; [done|].
  exists []. split; [by rewrite app_nil_r | constructor].
Qed.

Lemma spec_emit (Q : unit -> Prop) (P : stmt -> Prop) s :
  P s -> Q tt -> spec Q P (emit s).
Proof.
  intros Hs HQ w [] w' H. injection H as <-. split; [done|].
  exists [s]. split; [done | by constructor].
Qed.

Lemma spec_bind_lift {A B} (Q : B -> Prop) P (r : res A) (f : A -> M B) :
  (forall a, r = Val a -> spec Q P (f a)) -> spec Q P (lift r ≫= f).
Proof.
  intros Hf. eapply spec_bind; [apply (spec_lift (fun a => r = Val a)); auto|].
  done.
Qed.

Lemma spec_foldM {A B} (Inv : B -> Prop) (P : stmt -> Prop) (f : B -> A -> M B) l :
  (forall s x, In x l -> Inv s -> spec Inv P (f s x)) ->
  forall s, Inv s -> spec Inv P (foldM f l s).
Proof.
  induction l as [|x l IH]; intros Hf s Hs; simpl.
  - by apply spec_ret.
  - eapply spec_bind.
    + apply Hf; [by left | done].
    + intros s' Hs'. apply IH; [|done].
      intros s0 y Hy. apply Hf. by right.
Qed.


Lemma spec_seq {A B} (Q : B -> Prop) (P : stmt -> Prop) (m : M A) (k : M B) :
  spec (fun _ => True) P m -> spec Q P k -> spec Q P (m ≫= fun _ => k).
Proof. intros Hm Hk. eapply spec_bind; [exact Hm | intros _ _; exact Hk]. Qed.

(** What holds of one turn of a loop holds after the loop. *)
Lemma foldM_ok_pres {A S} (f : S -> A -> M S) (R : world -> world -> Prop) l :
  (forall w, R w w) ->
  (forall w1 w2 w3, R w1 w2 -> R w2 w3 -> R w1 w3) ->
  (forall s x w s' w', In x l -> f s x w = Ok s' w' -> R w w') ->
  forall s w s' w', foldM f l s w = Ok s' w' -> R w w'.
Proof.
  intros Hrefl Htrans. induction l as [|x l IH]; intros Hf s w s' w' H.
  - injection H as <- <-. apply Hrefl.
  - simpl in H. apply bind_ok in H as (s1 & w1 & H1 & H2).
    eapply Htrans.
    + eapply Hf; [by left | exact H1].
    + eapply IH; [|exact H2]. intros; eapply Hf; [by right | done].
Qed.

Lemma foldM_ok_each {A S} (f : S -> A -> M S) (Q : A -> world -> Prop) l :
  (forall s x w s' w', In x l -> f s x w = Ok s' w' ->
     Q x w' /\ forall y, Q y w -> Q y w') ->
  forall s w s' w', foldM f l s w = Ok s' w' -> forall x, In x l -> Q x w'.
Proof.
  induction l as [|x l IH]; intros Hf s w s' w' H y Hy; [destruct Hy|].
  simpl in H. apply bind_ok in H as (s1 & w1 & H1 & H2).
  destruct Hy as [<- | Hy].
  - destruct (Hf _ _ _ _ _ (or_introl eq_refl) H1) as [Hx _].
    revert Hx.
    apply (foldM_ok_pres f (fun w w' => Q x w -> Q x w') l) with s1 s'; auto.
    intros s0 x0 w0 s0' w0' Hx0 H0.
    apply (Hf _ _ _ _ _ (or_intror Hx0) H0).
  - eapply IH; [|exact H2|exact Hy].
    intros s0 x0 w0 s0' w0' Hx0 H0. apply (Hf _ _ _ _ _ (or_intror Hx0) H0).
Qed.

Lemma in_enumerate_from {A} (l : list A) n i x :
  In (i, x) (zip (seq n (length l)) l) <->
  (n <= i)%nat /\ l !! (i - n)%nat = Some x.
Proof.
  revert n. induction l as [|y l IH]; intros n; simpl.
  - split; [tauto | intros [_ H]; discriminate].
  - rewrite IH. split.
    + intros [H | [H1 H2]].
      * injection H as <- <-. split; [lia|]. by rewrite Nat.sub_diag.
      * split; [lia|]. replace (i - n)%nat with (S (i - S n)) by lia. done.
    + intros [H1 H2]. destruct (i - n)%nat as [|k] eqn:E.
      * left. injection H2 as <-. f_equal. lia.
      * right. split; [lia|]. replace (i - S n)%nat with k by lia. done.
Qed.

Lemma in_enumerate {A} (l : list A) i x :
  In (i, x) (enumerate l) <-> l !! i = Some x.
Proof.
  unfold enumerate. rewrite in_enumerate_from, Nat.sub_0_r.
  split; [tauto | split; [lia | done]].
Qed.

Lemma list_index_lookup x l i : list_index x l = Val i -> l !! i = Some x.
Proof.
  revert i. induction l as [|y l IH]; intros i H; simpl in H; [discriminate|].
  unfold str_eqb in H. case_bool_decide.
  - injection H as <-. by subst.
  - destruct (list_index x l) as [j|]; [|discriminate].
    injection H as <-. by apply IH.
Qed.

Lemma mem_false_neq x y l : mem x l = false -> In y l -> x <> y.
Proof.
  unfold mem. intros H Hy ->. apply bool_decide_eq_false in H.
  apply H. by apply list_elem_of_In.
Qed.

Lemma NULL_in_effective_removeList remove : In NULL (effective_removeList remove).
Proof. unfold effective_removeList. apply in_or_app. right. by left. Qed.

(** ** The graph is only written by the [add...ToGraph] functions *)

Section Program.
Variable py_eval : str -> option str.
Variable P : stmt -> Prop.

Local Abbreviation quiet := (quiet P).

Lemma callMacro_quiet self argsList enums :
  quiet (callMacro py_eval self argsList enums).
Proof.
  unfold callMacro. apply spec_bind_lift. intros body _.
  destruct (py_eval body).
  - by apply spec_ret.
  - apply spec_seq; [by apply spec_print | by apply spec_ret].
Qed.

Lemma simpleExpand_quiet self : quiet (simpleExpand py_eval self).
Proof.
  unfold simpleExpand. destruct (py_eval _).
  - by apply spec_ret.
  - apply spec_seq; [by apply spec_print | by apply spec_ret].
Qed.

Lemma parseMacro_quiet macros expr enums :
  quiet (parseMacro py_eval macros expr enums).
Proof.
  unfold parseMacro. destruct (match_ _ _ _).
  - destruct (split _ _) as [|? [|? [|? ?]]]; try by apply spec_lift.
    destruct (macros !! _).
    + apply callMacro_quiet.
    + apply spec_seq; [by apply spec_print | by apply spec_ret].
  - destruct (macros !! _); [apply simpleExpand_quiet | by apply spec_ret].
Qed.

Lemma action_var_values_in_func_quiet code_body action_var macros enums :
  quiet (action_var_values_in_func py_eval code_body action_var macros enums).
Proof.
  unfold action_var_values_in_func. destruct (negb _); [by apply spec_ret|].
  destruct (spliced _); [|apply spec_unmodelled].
  apply spec_foldM; [|done]. intros transition x _ _.
  apply spec_bind_lift. intros part _.
  eapply spec_bind; [apply parseMacro_quiet|]. intros macroValue _.
  by apply spec_ret.
Qed.

Lemma getIndirectFunctionsInFunc_spec code_body members macros enums removeList :
  spec (fun l => forall name, In name l -> mem name removeList = false) P
       (getIndirectFunctionsInFunc py_eval code_body members macros enums
          removeList).
Proof.
  unfold getIndirectFunctionsInFunc.
  apply spec_foldM; [|intros ? []]. intros acc member _ Hacc.
  eapply spec_bind; [apply action_var_values_in_func_quiet|].
  intros names _. apply spec_ret. clear member. revert acc Hacc.
  induction names as [|n names IH]; intros acc Hacc; simpl; [done|].
  apply IH. destruct (negb (mem n acc)); simpl; [|done].
  destruct (mem n removeList) eqn:E; simpl; [done|].
  intros name Hn. apply in_app_or in Hn as [Hn | [<- | []]]; auto.
Qed.

Lemma transitions_of_quiet a code_body :
  quiet (transitions_of py_eval a code_body).
Proof.
  unfold transitions_of.
  destruct (setupAction a); [by apply spec_lift|].
  destruct (setAction a); [by apply spec_lift|].
  destruct (arrayActorFunc a).
  - eapply spec_bind; [apply action_var_values_in_func_quiet|].
    intros idx _. apply spec_foldM; [|done]. intros tl indexStr _ _.
    destruct (PyInt.int indexStr).
    + apply spec_bind_lift. intros t _. by apply spec_ret.
    + apply spec_seq; [by apply spec_print | by apply spec_ret].
  - destruct (rawActorFunc a); [|by apply spec_ret].
    apply action_var_values_in_func_quiet.
Qed.

Lemma setup_func_definitions_quiet content func_names :
  quiet (setup_func_definitions content func_names).
Proof.
  unfold setup_func_definitions. apply spec_foldM; [|done].
  intros defs name _ _. destruct (definition_by_name _ _).
  - by apply spec_ret.
  - apply spec_seq; [by apply spec_print | by apply spec_ret].
Qed.

Lemma array_actor_quiet action_func_type match_obj contents :
  quiet (array_actor action_func_type match_obj contents).
Proof.
  unfold array_actor. destruct (search _ _ _).
  - destruct (spliced _); [|apply spec_unmodelled].
    destruct (search _ _ _); [by apply spec_ret|].
    apply spec_seq; [by apply spec_print | apply spec_exit].
  - apply spec_seq; [by apply spec_print | apply spec_exit].
Qed.

Lemma analyse_spec lo rl contents fn ln macros enums func_prefix :
  spec (fun a => func_names a = fn /\ removeList a = rl /\ loners a = lo) P
       (analyse lo rl contents fn ln macros enums func_prefix).
Proof.
  unfold analyse. apply spec_seq.
  { destruct (_ && _); [|by apply spec_ret].
    apply spec_seq; [by apply spec_print | apply spec_exit]. }
  eapply spec_bind with (Q := fun _ => True).
  { destruct (search _ _ _); [apply array_actor_quiet | by apply spec_ret]. }
  intros [action_functions action_var] _.
  eapply spec_bind with (Q := fun _ => True).
  { apply spec_foldM; [|done]. intros [bodies members] name _ _.
    apply spec_bind_lift. intros body _. by apply spec_ret. }
  intros [bodies members] _. by apply spec_ret.
Qed.

End Program.

(** ** Edges to [NULL] *)

Section Edges.
Variable py_eval : str -> option str.

Lemma addFunctionTransitionToGraph_good fn removeList index func_name t :
  In NULL removeList -> mem t removeList = false ->
  spec (fun _ => True) (good fn)
       (addFunctionTransitionToGraph fn index func_name t).
Proof.
  intros HN Ht. unfold addFunctionTransitionToGraph.
  destruct (index_of_func fn t) as [funcIndex|] eqn:E; [|by apply spec_print].
  apply spec_seq; [by apply spec_emit|].
  apply spec_seq; [by apply spec_emit|].
  apply spec_emit; [|done]. simpl. intros _.
  apply list_index_lookup in E. rewrite E. intros [= ->].
  by apply (mem_false_neq _ _ _ Ht HN).
Qed.

Lemma addCallNamesToGraph_good fn removeList index code_body sa raw :
  In NULL removeList ->
  spec (fun _ => True) (good fn)
       (addCallNamesToGraph fn index code_body removeList sa raw).
Proof.
  intros HN. unfold addCallNamesToGraph.
  apply spec_seq; [|by apply spec_ret].
  apply spec_foldM; [|done]. intros seen call _ _.
  destruct (negb (mem call fn)); [by apply spec_ret|].
  destruct (mem call seen); [by apply spec_ret|].
  destruct (mem call removeList) eqn:Hr; [by apply spec_ret|].
  destruct (sa && _); [by apply spec_ret|].
  apply spec_seq.
  { destruct raw; [|by apply spec_ret].
    apply spec_bind_lift. intros name _. by apply spec_emit. }
  apply spec_bind_lift. intros calledFuncIndex E.
  apply spec_seq; [by apply spec_emit|].
  apply spec_seq; [|by apply spec_ret].
  apply spec_emit; [|done]. simpl. intros _.
  apply list_index_lookup in E. rewrite E. intros [= ->].
  by apply (mem_false_neq _ _ _ Hr HN).
Qed.

Lemma addCallbacksToGraph_good fn index code_body transitionList :
  spec (fun _ => True) (good fn)
       (addCallbacksToGraph fn index code_body transitionList).
Proof.
  unfold addCallbacksToGraph. apply spec_seq; [|by apply spec_ret].
  apply spec_foldM; [|done]. intros seen call _ _.
  destruct (split1 _ _) as [|? [|? [|? ?]]]; try by apply spec_lift.
  apply spec_foldM; [|done]. intros seen' cb _ _.
  destruct (mem cb transitionList); [by apply spec_ret|].
  apply spec_bind_lift. intros calledFuncIndex _.
  apply spec_seq; [by apply spec_emit|].
  apply spec_seq; [|by apply spec_ret].
  apply spec_emit; [|done]. simpl. by intros H.
Qed.

Lemma addIndirectFunctionsToGraph_good fn removeList index indirectFunctions :
  In NULL removeList ->
  (forall name, In name indirectFunctions -> mem name removeList = false) ->
  spec (fun _ => True) (good fn)
       (addIndirectFunctionsToGraph fn index indirectFunctions).
Proof.
  intros HN Hl. unfold addIndirectFunctionsToGraph.
  apply spec_seq; [|by apply spec_ret].
  apply spec_foldM; [|done]. intros seen call Hc _.
  destruct (negb (mem call fn)); [by apply spec_ret|].
  destruct (mem call seen); [by apply spec_ret|].
  apply spec_bind_lift. intros name _.
  apply spec_seq; [by apply spec_emit|].
  apply spec_bind_lift. intros calledFuncIndex E.
  apply spec_seq; [by apply spec_emit|].
  apply spec_seq; [|by apply spec_ret].
  apply spec_emit; [|done]. simpl. intros _.
  apply list_index_lookup in E. rewrite E. intros [= ->].
  by apply (mem_false_neq _ _ _ (Hl _ Hc) HN).
Qed.

Lemma function_edges_good a index func_name :
  In NULL (removeList a) ->
  spec (fun _ => True) (good (func_names a))
       (function_edges py_eval a index func_name).
Proof.
  intros HN. unfold function_edges.
  apply spec_bind_lift. intros code_body _.
  eapply spec_bind; [apply transitions_of_quiet|]. intros transitionList _.
  apply spec_seq.
  { apply spec_foldM; [|done]. intros [] t Ht _.
    apply addFunctionTransitionToGraph_good with (removeList a); [done|].
    apply filter_In in Ht as [_ Ht]. by apply negb_true_iff in Ht. }
  apply spec_seq; [by apply addCallNamesToGraph_good|].
  apply spec_seq; [apply addCallbacksToGraph_good|].
  eapply spec_bind; [apply getIndirectFunctionsInFunc_spec|].
  intros indirectFunctions Hl.
  by apply addIndirectFunctionsToGraph_good with (removeList a).
Qed.

Lemma process_function_good a index func_name :
  In NULL (removeList a) ->
  spec (fun _ => True) (good (func_names a))
       (process_function py_eval a index func_name).
Proof.
  intros HN. unfold process_function.
  destruct (mem func_name (removeList a)); [by apply spec_ret|].
  apply spec_seq; [|by apply function_edges_good].
  destruct (loners a); [by apply spec_emit | by apply spec_ret].
Qed.

Lemma emit_edges_good a :
  In NULL (removeList a) ->
  spec (fun _ => True) (good (func_names a)) (emit_edges py_eval a).
Proof.
  intros HN. unfold emit_edges. apply spec_foldM; [|done].
  intros [] [index func_name] _ _. by apply process_function_good.
Qed.

Lemma lifecycle_step_good fn func_prefix x :
  spec (fun _ => True) (good fn) (lifecycle_step func_prefix x).
Proof.
  destruct x as [index func_name]. simpl.
  destruct (endswith func_name _).
  - apply spec_seq; [by apply spec_emit | by apply spec_ret].
  - destruct (_ || _); [|by apply spec_ret].
    apply spec_seq; [by apply spec_emit | by apply spec_ret].
Qed.



(** ** Nodes of lifecycle functions and of loners *)

Lemma emit_ok s w a w' : emit s w = Ok a w' -> dot w' = dot w ++ [s].
Proof. intros H. inversion H. reflexivity. Qed.

Lemma mret_ok {A} (a b : A) w w' :
  (mret a : M A) w = Ok b w' -> a = b /\ w = w'.
Proof. intros H. inversion H. by subst. Qed.

Lemma in_snoc {A} (x : A) l l' : l' = l ++ [x] -> In x l'.
Proof. intros ->. apply in_or_app. right. by left. Qed.

Lemma lifecycle_step_node func_prefix index func_name w s' w' :
  lifecycle_step func_prefix (index, func_name) w = Ok s' w' ->
  is_lifecycle func_name = true -> In (Node index func_name) (dot w').
Proof.
  unfold lifecycle_step, is_lifecycle. intros H.
  destruct (endswith func_name $"_Init").
  - apply bind_ok in H as ([] & w1 & H1 & H2).
    apply emit_ok in H1. apply mret_ok in H2 as [_ <-].
    intros _. by apply in_snoc with (dot w).
  - destruct (endswith func_name $"_Destroy"), (endswith func_name $"_Update"),
      (endswith func_name $"_Draw"); simpl in *;
      try (intros; discriminate);
      apply bind_ok in H as ([] & w1 & H1 & H2);
      apply emit_ok in H1; apply mret_ok in H2 as [_ <-];
      intros _; by apply in_snoc with (dot w).
Qed.

Lemma register_lifecycle_nodes func_names w func_prefix w' :
  register_lifecycle func_names w = Ok func_prefix w' ->
  forall index func_name,
    func_names !! index = Some func_name -> is_lifecycle func_name = true ->
    In (Node index func_name) (dot w').
Proof.
  intros H index func_name Hi Hl.
  apply in_enumerate in Hi.
  assert (Hall := foldM_ok_each lifecycle_step
           (fun x w => is_lifecycle x.2 = true -> In (Node x.1 x.2) (dot w))
           (enumerate func_names)).
  apply (fun Hs => Hall Hs _ _ _ _ H (index, func_name) Hi Hl).
  clear. intros s [i n] w0 s0 w1 _ H0. split.
  - eapply lifecycle_step_node. exact H0.
  - intros y Hy Hl. apply adds_incl with (good []) w0; [|by apply Hy].
    eapply spec_adds; [apply lifecycle_step_good | exact H0].
Qed.

Lemma mem_true_In x l : mem x l = true -> In x l.
Proof.
  unfold mem. intros H. apply bool_decide_eq_true in H.
  by apply list_elem_of_In.
Qed.

Lemma process_function_node a index func_name w w' :
  In NULL (removeList a) ->
  process_function py_eval a index func_name w = Ok tt w' ->
  loners a = true -> ~ In func_name (removeList a) ->
  In (Node index func_name) (dot w').
Proof.
  unfold process_function. intros HN H Hl Hr.
  destruct (mem func_name (removeList a)) eqn:E.
  { destruct Hr. by apply mem_true_In. }
  rewrite Hl in H. apply bind_ok in H as ([] & w1 & H1 & H2).
  apply emit_ok in H1.
  apply adds_incl with (good (func_names a)) w1;
    [|by apply in_snoc with (dot w)].
  eapply spec_adds; [by apply function_edges_good | exact H2].
Qed.

Lemma emit_edges_nodes a w w' :
  In NULL (removeList a) ->
  emit_edges py_eval a w = Ok tt w' ->
  loners a = true ->
  forall index func_name,
    func_names a !! index = Some func_name ->
    ~ In func_name (removeList a) ->
    In (Node index func_name) (dot w').
Proof.
  intros HN H Hl index func_name Hi Hr. apply in_enumerate in Hi.
  assert (Hall := foldM_ok_each
           (fun (_ : unit) '(index, func_name) =>
              process_function py_eval a index func_name)
           (fun x w => ~ In x.2 (removeList a) -> In (Node x.1 x.2) (dot w))
           (enumerate (func_names a))).
  apply (fun Hs => Hall Hs _ _ _ _ H (index, func_name) Hi Hr).
  clear - HN Hl. intros [] [i n] w0 [] w1 _ H0. split.
  - simpl. intros Hr. by eapply process_function_node.
  - intros y Hy Hr. apply adds_incl with (good (func_names a)) w0;
      [|by apply Hy].
    eapply spec_adds; [by apply process_function_good | exact H0].
Qed.

End Edges.

(** ** Function bodies and comments *)

Lemma find_comment code comment :
  contains $"//" (code ++ $"/") = false ->
  find $"//" (code ++ $"//" ++ comment) = Some (length code).
Proof.
  induction code as [|x code IH]; intros H; [reflexivity|].
  unfold contains in H. cbn [find app] in *.
  destruct (startswith $"//" (x :: code ++ $"/")) eqn:E1; [discriminate|].
  assert (E2 : startswith $"//" (x :: code ++ $"//" ++ comment) = false).
  { destruct code as [|y code]; simpl in *.
    - by rewrite andb_true_r in *.
    - done. }
  rewrite E2. rewrite IH; [done|].
  unfold contains. by destruct (find $"//" (code ++ $"/")).
Qed.

Lemma find_none_app_slash code :
  contains $"//" (code ++ $"/") = false -> contains $"//" code = false.
Proof.
  unfold contains. induction code as [|x code IH]; intros H; [reflexivity|].
  cbn [find app] in *.
  destruct (startswith $"//" (x :: code ++ $"/")) eqn:E1; [discriminate|].
  assert (E2 : startswith $"//" (x :: code) = false).
  { destruct code as [|y code]; simpl in *; [by rewrite andb_false_r | done]. }
  rewrite E2. destruct (find $"//" (code ++ $"/")); [discriminate|].
  by destruct (find $"//" code); [discriminate (IH eq_refl)|].
Qed.

(** The text the scan keeps of a line is the text before its comment. *)
Lemma strip_comment l :
  contains $"//" (l.1 ++ $"/") = false ->
  (if contains $"//" (render_line l)
   then take (default 0%nat (find $"//" (render_line l))) (render_line l)
   else render_line l) = l.1.
Proof.
  destruct l as [code [comment|]]; unfold render_line; cbn [fst snd]; intros H.
  - unfold contains. rewrite (find_comment code comment H). cbn [default id].
    by rewrite take_app_length.
  - by rewrite (find_none_app_slash code H).
Qed.

Lemma scan_body_comments lines :
  Forall (fun l => contains $"//" (l.1 ++ $"/") = false) lines ->
  forall bracket_count code,
    scan_body (map render_line lines) bracket_count code =
    code ++ concat (take (closing_line (map fst lines) bracket_count)
                         (map fst lines)).
Proof.
  induction 1 as [|l lines Hl _ IH]; intros bracket_count code.
  - simpl. by rewrite app_nil_r.
  - cbn [map scan_body closing_line]. rewrite (strip_comment l Hl).
    fold (brace_delta l.1).
    replace (bracket_count + Z.of_nat (count $"{" l.1)
             - Z.of_nat (count $"}" l.1))
      with (bracket_count + brace_delta l.1) by (unfold brace_delta; lia).
    destruct (bracket_count + brace_delta l.1 =? 0).
    + simpl. by rewrite app_nil_r.
    + rewrite IH. simpl. by rewrite app_assoc.
Qed.

(** C8: braces are counted on each line after its [//] comment is cut off.
    Take the lines after the signature as code and comment, the code being
    the text before the first two slashes of the line.  Whatever the
    comments hold, the located body is the code of the lines before the first
    line at which the count of open braces, taken over the code alone and
    starting from 1, is back to zero. *)
Theorem get_code_body_ignores_comments
    (func_names : list str) (line_numbers : list nat) (content funcname : str)
    (idx line_num : nat) (lines : list (str * option str)) :
  index_of_func func_names funcname = Val idx ->
  getitem line_numbers (Z.of_nat idx) = Val line_num ->
  (0 < line_num)%nat ->
  drop line_num (splitlines content) = map render_line lines ->
  Forall (fun l => contains $"//" (l.1 ++ $"/") = false) lines ->
  get_code_body func_names line_numbers content funcname =
  Val (concat (take (closing_line (map fst lines) 1) (map fst lines))).
Proof.
  intros Hidx Hnum Hpos Hlines Hcode. unfold get_code_body.
  rewrite Hidx. simpl. rewrite Hnum. simpl.
  destruct (line_num <=? 0)%nat eqn:E; [apply Nat.leb_le in E; lia|].
  rewrite Hlines. by rewrite (scan_body_comments lines Hcode).
Qed.

(** ** Splitting and stripping *)

Lemma not_char_startswith x c p s :
  not_char x c = true -> startswith (x :: p) (c :: s) = false.
Proof.
  unfold not_char. intros H. simpl. by destruct (ch_eqb x c).
Qed.



Lemma split_go_lacks x a cur :
  lacks x a = true -> split_go [x] a 0 cur = [rev cur ++ a].
Proof.
  revert cur. induction a as [|c a IH]; intros cur H.
  - simpl. by rewrite app_nil_r.
  - simpl in H. apply andb_true_iff in H as [Hc Ha].
    cbn [split_go]. rewrite (not_char_startswith x c [] a Hc).
    rewrite IH by done. simpl. by rewrite <- app_assoc.
Qed.


Lemma split_lacks x a : lacks x a = true -> split [x] a = [a].
Proof. intros H. unfold split. by rewrite split_go_lacks. Qed.














(** ** Printing and reading integers *)

Module IntText.
Import PyInt.







End IntText.

(** ** Enum blocks *)










(** * Statements of the specification *)

Lemma adds_quiet w w' : adds (fun _ => False) w w' -> dot w' = dot w.
Proof.
  intros [new [E F]]. destruct new as [|s new].
  - by rewrite app_nil_r in E.
  - by inversion F.
Qed.

Lemma lift_ok {A} (r : res A) w a w' :
  lift r w = Ok a w' -> r = Val a /\ w' = w.
Proof.
  unfold lift. destruct r; [|discriminate]. intros H. inversion H. by subst.
Qed.

Lemma lifecycle_step_dot func_prefix index func_name w s' w' :
  lifecycle_step func_prefix (index, func_name) w = Ok s' w' ->
  dot w' = dot w ++ (if is_lifecycle func_name then [Node index func_name]
                     else []).
Proof.
  unfold lifecycle_step, is_lifecycle. intros H.
  destruct (endswith func_name $"_Init").
  - apply bind_ok in H as ([] & w1 & H1 & H2).
    apply emit_ok in H1. by apply mret_ok in H2 as [_ <-].
  - destruct (endswith func_name $"_Destroy"), (endswith func_name $"_Update"),
      (endswith func_name $"_Draw"); simpl in *;
      try (apply mret_ok in H as [_ <-]; by rewrite app_nil_r);
      apply bind_ok in H as ([] & w1 & H1 & H2);
      apply emit_ok in H1; by apply mret_ok in H2 as [_ <-].
Qed.

Lemma register_lifecycle_dot func_names w func_prefix w' :
  register_lifecycle func_names w = Ok func_prefix w' ->
  dot w' = dot w ++ lifecycle_nodes func_names.
Proof.
  unfold register_lifecycle, lifecycle_nodes.
  generalize (enumerate func_names) as l. generalize (@nil ascii) as s.
  intros s l. revert s w.
  induction l as [|[index func_name] l IH]; intros s w H.
  - apply mret_ok in H as [_ <-]. simpl. by rewrite app_nil_r.
  - cbn [foldM] in H. apply bind_ok in H as (s1 & w1 & H1 & H2).
    apply lifecycle_step_dot in H1. apply IH in H2. rewrite H2, H1.
    cbn [List.filter snd fst]. rewrite <- app_assoc. f_equal.
    by destruct (is_lifecycle func_name).
Qed.

Section Graph.
Variable py_eval : str -> option str.

(** C9, as amended: when a run ends normally the graph starts with the nodes
    of the functions whose name ends in [_Init], [_Update], [_Draw] or
    [_Destroy], written before any edge is looked for, so each of them is a
    node; and with the loners option every extracted function that is not in
    the removal list is a node. *)
Theorem lifecycle_and_loner_nodes (loners_opt : bool)
    (remove : option (list str)) (contents : str) (w' : world) :
  main py_eval loners_opt remove contents world0 = Ok tt w' ->
  (exists rest,
      dot w' = lifecycle_nodes (capture_definition_names contents) ++ rest) /\
  forall index func_name,
    capture_definition_names contents !! index = Some func_name ->
    (is_lifecycle func_name = true -> In (Node index func_name) (dot w')) /\
    (loners_opt = true -> ~ In func_name (effective_removeList remove) ->
     In (Node index func_name) (dot w')).
Proof.
  intros H. unfold main in H.
  apply bind_ok in H as (defs & w1 & H1 & H).
  apply bind_ok in H as (line_numbers & w2 & H2 & H).
  apply bind_ok in H as (enums & w3 & H3 & H).
  apply bind_ok in H as (func_prefix & w4 & H4 & H).
  apply bind_ok in H as (a & w5 & H5 & H6).
  apply (spec_adds _ _ _ _ _ _
           (setup_func_definitions_quiet (fun _ => False) _ _)) in H1.
  apply adds_quiet in H1. simpl in H1.
  apply lift_ok in H2 as [_ ->]. apply lift_ok in H3 as [_ ->].
  assert (Hdot := register_lifecycle_dot _ _ _ _ H4).
  rewrite H1 in Hdot. simpl in Hdot.
  destruct (analyse_spec (good (capture_definition_names contents))
              _ _ _ _ _ _ _ _ _ _ _ H5) as [(Hfn & Hrl & Hlo) Ha].
  assert (HN : In NULL (removeList a))
    by (rewrite Hrl; apply NULL_in_effective_removeList).
  assert (He := spec_adds _ _ _ _ _ _ (emit_edges_good py_eval a HN) H6).
  rewrite Hfn in He.
  split.
  - destruct (adds_trans _ _ _ _ Ha He) as [rest [E _]].
    exists rest. by rewrite E, Hdot.
  - intros index func_name Hi. split.
    + intros Hl. apply (adds_incl _ _ _ _ He). apply (adds_incl _ _ _ _ Ha).
      by apply (register_lifecycle_nodes _ _ _ _ H4).
    + intros -> Hr. rewrite <- Hfn in Hi. rewrite <- Hrl in Hr.
      by apply (emit_edges_nodes py_eval a w5 w' HN H6 Hlo).
Qed.


End Graph.

(** ** Runs of the script *)

Section Runs.
Variable py_eval : str -> option str.

(** C1: in an array based actor an index that is no integer is skipped with a
    warning and the run goes on, but an index beyond the array of action
    functions raises [IndexError] out of [main]: the run of [src_array] with
    index [5] stops there, while index [abc] only prints the warning. *)
Theorem array_index_out_of_range_raises :
  main py_eval false None (src_array "abc") world0
  = Ok tt {| dot := [Node 0 $"Foo_Init"; Node 3 $"Foo_Update"];
             out := [ParseIndexWarning $"abc"] |} /\
  main py_eval false None (src_array "5") world0
  = Raise IndexError {| dot := [Node 0 $"Foo_Init"; Node 3 $"Foo_Update"];
                        out := [] |}.
Proof. split; vm_compute; reflexivity. Qed.

(** C2: a name of the removal list still gets a node and a callback edge when
    it is passed as an argument of a call ([FooWait] in [src_transition]),
    and a lifecycle function of the removal list still gets its node
    ([Foo_Init] in [src_loner]). *)
Theorem removed_name_still_in_graph :
  capture_definition_names src_transition = [$"Foo_Init"; $"FooWait"] /\
  main py_eval false (Some [$"FooWait"]) src_transition world0
  = Ok tt {| dot := [Node 0 $"Foo_Init"; Node 1 $"FooWait";
                     Edge 0 1 Callback];
             out := [] |} /\
  main py_eval false (Some [$"Foo_Init"]) src_loner world0
  = Ok tt {| dot := [Node 0 $"Foo_Init"]; out := [] |}.
Proof. repeat split; vm_compute; reflexivity. Qed.

(** C3: two calls that pass the same function give the same callback edge
    twice. *)
Theorem callback_edge_twice :
  main py_eval false None src_callbacks world0
  = Ok tt {| dot := [Node 0 $"Foo_Init"; Node 1 $"FooWait"; Edge 0 1 Callback;
                     Node 1 $"FooWait"; Edge 0 1 Callback];
             out := [] |}.
Proof. vm_compute. reflexivity. Qed.

(** C4: a macro with two parameters is not captured, so its call is an
    unknown macro and yields no value; a macro with one parameter is
    captured with that parameter. *)
Theorem two_parameter_macro_unknown (enums : EnumContainer) (w : world) :
  getMacrosDefinitions (text ["#define ADD(x,y) x+y"%string]) = ∅ /\
  parseMacro py_eval (getMacrosDefinitions (text ["#define ADD(x,y) x+y"%string]))
    $"ADD(1,2)" enums w
  = Ok None {| dot := dot w; out := out w ++ [UnknownMacro $"ADD"] |} /\
  getMacrosDefinitions (text ["#define INC(x) x+1"%string]) !! $"INC"
  = Some {| macro_name := $"INC"; macro_params := [$"x"];
            macro_body := $"x+1" |}.
Proof.
  assert (E : getMacrosDefinitions (text ["#define ADD(x,y) x+y"%string]) = ∅)
    by (vm_compute; reflexivity).
  split; [exact E|]. split; [|vm_compute; reflexivity].
  rewrite E. unfold parseMacro.
  replace (match_ func_call_regexpr 1 $"ADD(1,2)")
    with (Some {| m_group := $"ADD(1,2)"; m_groups := [None]; m_rest := [] |})
    by (vm_compute; reflexivity).
  replace (split $"(" (first (split $")" $"ADD(1,2)")))
    with [$"ADD"; $"1,2"] by (vm_compute; reflexivity).
  cbn [m_group]. 
  replace (split $"(" (first (split $")" $"ADD(1,2)")))
    with [$"ADD"; $"1,2"] by (vm_compute; reflexivity).
  by rewrite lookup_empty.
Qed.

(** A call of an unknown macro with a single opening parenthesis before its
    first closing one is answered by the warning and no value. *)
Lemma parseMacro_unknown_macro (macros : MacrosContainer) (expr : str)
    (enums : EnumContainer) (w : world) (m : rematch) (name args : str) :
  match_ func_call_regexpr 1 expr = Some m ->
  split $"(" (first (split $")" (m_group m))) = [name; args] ->
  macros !! name = None ->
  parseMacro py_eval macros expr enums w
  = Ok None {| dot := dot w; out := out w ++ [UnknownMacro name] |}.
Proof.
  intros Hm Hs Hn. unfold parseMacro. by rewrite Hm, Hs, Hn.
Qed.

(** C6: an expression with the shape of a call that holds a second opening
    parenthesis before its first closing one makes [parseMacro] raise
    [ValueError], whatever macros are known; a run that meets such an
    expression in an assignment stops with that exception. *)
Theorem nested_call_raises (macros : MacrosContainer) (enums : EnumContainer)
    (w : world) :
  parseMacro py_eval macros $"F(G(1))" enums w = Raise ValueError w /\
  main py_eval false None src_nested_call world0
  = Raise ValueError {| dot := [Node 0 $"Foo_Init"]; out := [] |}.
Proof.
  split; [|vm_compute; reflexivity].
  unfold parseMacro.
  replace (match_ func_call_regexpr 1 $"F(G(1))")
    with (Some {| m_group := $"F(G(1)"; m_groups := [None]; m_rest := $")" |})
    by (vm_compute; reflexivity).
  cbn [m_group].
  replace (split $"(" (first (split $")" $"F(G(1)")))
    with [$"F"; $"G"; $"1"] by (vm_compute; reflexivity).
  reflexivity.
Qed.

(** C7: the signature kept for [Foo_Init] of [src_lost_signature] occurs on no
    line, so one line number is recorded for two functions; the body found
    for [Foo_Init] is that of [Foo_Wait], locating the body of [Foo_Wait]
    raises [IndexError], and so does the run. *)
Theorem lost_signature_raises :
  capture_definition_names src_lost_signature = [$"Foo_Init"; $"Foo_Wait"] /\
  setup_func_definitions src_lost_signature [$"Foo_Init"; $"Foo_Wait"] world0
  = Ok [$"Foo_Init(int a /* {"; $"Foo_Wait(void) {"] world0 /\
  forallb (fun line => negb (contains $"Foo_Init(int a /* {" line))
          (splitlines src_lost_signature) = true /\
  setup_line_numbers src_lost_signature [$"Foo_Init"; $"Foo_Wait"]
    [$"Foo_Init(int a /* {"; $"Foo_Wait(void) {"] = Val [4%nat] /\
  get_code_body [$"Foo_Init"; $"Foo_Wait"] [4%nat] src_lost_signature
    $"Foo_Init" = Val (text ["    x = 1;"%string]) /\
  get_code_body [$"Foo_Init"; $"Foo_Wait"] [4%nat] src_lost_signature
    $"Foo_Wait" = Err IndexError /\
  main py_eval false None src_lost_signature world0
  = Raise IndexError {| dot := [Node 0 $"Foo_Init"]; out := [] |}.
Proof. repeat split; vm_compute; reflexivity. Qed.

End Runs.




(** The body of [Foo_Init] in [src_comment_brace], whose fourth line closes
    a block and opens a brace in its comment. *)
Lemma get_code_body_ignores_comments_witness :
  index_of_func [$"Foo_Init"; $"Foo_Update"] $"Foo_Init" = Val 0%nat /\
  getitem [1%nat; 7%nat] 0 = Val 1%nat /\
  (0 < 1)%nat /\
  drop 1 (splitlines src_comment_brace) = map render_line lines_comment_brace /\
  Forall (fun l => contains $"//" (l.1 ++ $"/") = false) lines_comment_brace /\
  get_code_body [$"Foo_Init"; $"Foo_Update"] [1%nat; 7%nat] src_comment_brace
    $"Foo_Init"
  = Val (concat (take (closing_line (map fst lines_comment_brace) 1)
                      (map fst lines_comment_brace))) /\
  concat (take (closing_line (map fst lines_comment_brace) 1)
               (map fst lines_comment_brace))
  = text ["    if (x) {"%string; "        y = 1;"%string]
    ++ $"    }  " ++ text ["    z = 2;"%string].
Proof.
  assert (H1 : index_of_func [$"Foo_Init"; $"Foo_Update"] $"Foo_Init"
               = Val 0%nat) by reflexivity.
  assert (H2 : getitem [1%nat; 7%nat] 0 = Val 1%nat) by reflexivity.
  assert (H3 : (0 < 1)%nat) by lia.
  assert (H4 : drop 1 (splitlines src_comment_brace)
               = map render_line lines_comment_brace)
    by (vm_compute; reflexivity).
  assert (H5 : Forall (fun l => contains $"//" (l.1 ++ $"/") = false)
                      lines_comment_brace)
    by (repeat constructor).
  split; [exact H1|]. split; [exact H2|]. split; [exact H3|].
  split; [exact H4|]. split; [exact H5|].
  split; [|vm_compute; reflexivity].
  exact (get_code_body_ignores_comments _ _ _ _ _ _ _ H1 H2 H3 H4 H5).
Defined.

(** C9 as stated fails: with the loners option a function of the removal
    list gets no node. *)
Lemma removed_loner_not_registered :
  capture_definition_names src_loner = [$"Foo_Init"; $"FooHelper"] /\
  main eval_literal true (Some [$"FooHelper"]) src_loner world0
  = Ok tt {| dot := [Node 0 $"Foo_Init"; Node 0 $"Foo_Init"]; out := [] |} /\
  ~ In (Node 1 $"FooHelper") [Node 0 $"Foo_Init"; Node 0 $"Foo_Init"].
Proof.
  split; [vm_compute; reflexivity|]. split; [vm_compute; reflexivity|].
  intros [H | [H | []]]; discriminate.
Qed.

(** The run of [src_loner] with the loners option and no removal list. *)
Lemma lifecycle_and_loner_nodes_witness :
  exists w',
    main eval_literal true None src_loner world0 = Ok tt w' /\
    dot w' = [Node 0 $"Foo_Init"; Node 0 $"Foo_Init"; Node 1 $"FooHelper"] /\
    (exists rest,
        dot w' = lifecycle_nodes (capture_definition_names src_loner) ++ rest) /\
    forall index func_name,
      capture_definition_names src_loner !! index = Some func_name ->
      (is_lifecycle func_name = true -> In (Node index func_name) (dot w')) /\
      (true = true -> ~ In func_name (effective_removeList None) ->
       In (Node index func_name) (dot w')).
Proof.
  eexists. split; [vm_compute; reflexivity|]. split; [reflexivity|].
  apply (lifecycle_and_loner_nodes eval_literal true None src_loner).
  vm_compute. reflexivity.
Defined.


(** * Further properties of the graph *)

Lemma getitem_lookup {A} (l : list A) (i : nat) (x : A) :
  getitem l (Z.of_nat i) = Val x -> l !! i = Some x.
Proof.
  unfold getitem. destruct (Z.of_nat i <? 0) eqn:E; [apply Z.ltb_lt in E; lia|].
  destruct (_ && _); [|discriminate]. rewrite Nat2Z.id.
  destruct (l !! i); [|discriminate]. by intros [= ->].
Qed.

Section Sound.
Variable py_eval : str -> option str.
Variables fn rl : list str.

Local Abbreviation ok := (sound fn rl).

Lemma sound_target call i :
  index_of_func fn call = Val i -> mem call rl = false ->
  exists dst, fn !! i = Some dst /\ (FuncCall <> Callback -> mem dst rl = false).
Proof. intros E Hr. apply list_index_lookup in E. by exists call. Qed.

Lemma addFunctionTransitionToGraph_sound index func_name t :
  fn !! index = Some func_name -> mem func_name rl = false ->
  mem t rl = false ->
  spec (fun _ => True) ok (addFunctionTransitionToGraph fn index func_name t).
Proof.
  intros Hi Hs Ht. unfold addFunctionTransitionToGraph.
  destruct (index_of_func fn t) as [funcIndex|] eqn:E; [|by apply spec_print].
  apply list_index_lookup in E.
  apply spec_seq; [by apply spec_emit|].
  apply spec_seq; [by apply spec_emit|].
  apply spec_emit; [|done]. split.
  - exists func_name. split_and!; [done | done |].
    by destruct (endswith func_name $"_Init").
  - by exists t.
Qed.

Lemma addCallNamesToGraph_sound index func_name code_body sa raw :
  fn !! index = Some func_name -> mem func_name rl = false ->
  spec (fun _ => True) ok (addCallNamesToGraph fn index code_body rl sa raw).
Proof.
  intros Hi Hs. unfold addCallNamesToGraph.
  apply spec_seq; [|by apply spec_ret].
  apply spec_foldM; [|done]. intros seen call _ _.
  destruct (negb (mem call fn)); [by apply spec_ret|].
  destruct (mem call seen); [by apply spec_ret|].
  destruct (mem call rl) eqn:Hr; [by apply spec_ret|].
  destruct (sa && _); [by apply spec_ret|].
  apply spec_seq.
  { destruct raw; [|by apply spec_ret].
    apply spec_bind_lift. intros name Hn. apply spec_emit; [|done].
    by apply getitem_lookup. }
  apply spec_bind_lift. intros calledFuncIndex E.
  apply list_index_lookup in E.
  apply spec_seq; [by apply spec_emit|].
  apply spec_seq; [|by apply spec_ret].
  apply spec_emit; [|done]. split.
  - by exists func_name.
  - by exists call.
Qed.

Lemma addCallbacksToGraph_sound index func_name code_body transitionList :
  fn !! index = Some func_name -> mem func_name rl = false ->
  spec (fun _ => True) ok
       (addCallbacksToGraph fn index code_body transitionList).
Proof.
  intros Hi Hs. unfold addCallbacksToGraph.
  apply spec_seq; [|by apply spec_ret].
  apply spec_foldM; [|done]. intros seen call _ _.
  destruct (split1 _ _) as [|? [|? [|? ?]]]; try by apply spec_lift.
  apply spec_foldM; [|done]. intros seen' cb _ _.
  destruct (mem cb transitionList); [by apply spec_ret|].
  apply spec_bind_lift. intros calledFuncIndex E.
  apply list_index_lookup in E.
  apply spec_seq; [by apply spec_emit|].
  apply spec_seq; [|by apply spec_ret].
  apply spec_emit; [|done]. split.
  - by exists func_name.
  - exists cb. split; [done|]. by intros H.
Qed.

Lemma addIndirectFunctionsToGraph_sound index func_name indirectFunctions :
  fn !! index = Some func_name -> mem func_name rl = false ->
  (forall name, In name indirectFunctions -> mem name rl = false) ->
  spec (fun _ => True) ok
       (addIndirectFunctionsToGraph fn index indirectFunctions).
Proof.
  intros Hi Hs Hl. unfold addIndirectFunctionsToGraph.
  apply spec_seq; [|by apply spec_ret].
  apply spec_foldM; [|done]. intros seen call Hc _.
  destruct (negb (mem call fn)); [by apply spec_ret|].
  destruct (mem call seen); [by apply spec_ret|].
  apply spec_bind_lift. intros name Hn.
  apply spec_seq; [apply spec_emit; [by apply getitem_lookup | done]|].
  apply spec_bind_lift. intros calledFuncIndex E.
  apply list_index_lookup in E.
  apply spec_seq; [by apply spec_emit|].
  apply spec_seq; [|by apply spec_ret].
  apply spec_emit; [|done]. split.
  - by exists func_name.
  - exists call. split; [done|]. intros _. by apply Hl.
Qed.

Lemma function_edges_sound a index func_name :
  func_names a = fn -> removeList a = rl ->
  fn !! index = Some func_name -> mem func_name rl = false ->
  spec (fun _ => True) ok (function_edges py_eval a index func_name).
Proof.
  intros Hfn Hrl Hi Hs. unfold function_edges. rewrite Hfn, Hrl.
  apply spec_bind_lift. intros code_body _.
  eapply spec_bind; [apply transitions_of_quiet|]. intros transitionList _.
  apply spec_seq.
  { apply spec_foldM; [|done]. intros [] t Ht _.
    apply addFunctionTransitionToGraph_sound; [done | done |].
    apply filter_In in Ht as [_ Ht]. by apply negb_true_iff in Ht. }
  apply spec_seq; [by apply addCallNamesToGraph_sound with func_name|].
  apply spec_seq; [by apply addCallbacksToGraph_sound with func_name|].
  eapply spec_bind; [apply getIndirectFunctionsInFunc_spec|].
  intros indirectFunctions Hl.
  by apply addIndirectFunctionsToGraph_sound with func_name.
Qed.

Lemma emit_edges_sound a :
  func_names a = fn -> removeList a = rl ->
  spec (fun _ => True) ok (emit_edges py_eval a).
Proof.
  intros Hfn Hrl. unfold emit_edges. apply spec_foldM; [|done].
  intros [] [index func_name] Hi _. rewrite Hfn in Hi.
  apply in_enumerate in Hi. unfold process_function. rewrite Hrl.
  destruct (mem func_name rl) eqn:Hs; [by apply spec_ret|].
  apply spec_seq; [|by apply function_edges_sound].
  destruct (loners a); [by apply spec_emit | by apply spec_ret].
Qed.

Lemma register_lifecycle_sound :
  spec (fun _ => True) ok (register_lifecycle fn).
Proof.
  unfold register_lifecycle. apply spec_foldM; [|done].
  intros func_prefix [index func_name] Hi _. apply in_enumerate in Hi.
  simpl. destruct (endswith func_name _).
  - apply spec_seq; [by apply spec_emit | by apply spec_ret].
  - destruct (_ || _); [|by apply spec_ret].
    apply spec_seq; [by apply spec_emit | by apply spec_ret].
Qed.

End Sound.

Lemma main_sound py_eval loners_opt remove contents :
  spec (fun _ => True)
       (sound (capture_definition_names contents) (effective_removeList remove))
       (main py_eval loners_opt remove contents).
Proof.
  unfold main.
  eapply spec_bind; [apply setup_func_definitions_quiet|]. intros defs _.
  apply spec_bind_lift. intros line_numbers _.
  apply spec_bind_lift. intros enums _.
  eapply spec_bind; [apply register_lifecycle_sound|]. intros func_prefix _.
  eapply spec_bind; [apply analyse_spec|]. intros a (Hfn & Hrl & _).
  by apply emit_edges_sound.
Qed.

(** Every statement of the graph of a completed run is sound. *)
Lemma main_graph_sound py_eval loners_opt remove contents w' s :
  main py_eval loners_opt remove contents world0 = Ok tt w' ->
  In s (dot w') ->
  sound (capture_definition_names contents) (effective_removeList remove) s.
Proof.
  intros H Hin.
  destruct (main_sound py_eval loners_opt remove contents _ _ _ H)
    as [_ [new [E F]]].
  simpl in E. rewrite E in Hin. rewrite Forall_forall in F.
  apply list_elem_of_In in Hin. exact (F _ Hin).
Qed.

(** ** Rules for [writes] *)

Lemma writes_ret {A} (R : A -> list stmt -> Prop) a :
  R a [] -> writes R (mret a).
Proof.
  intros Ha w a' w' H. apply mret_ok in H as [<- <-]. exists [].
  by rewrite app_nil_r.
Qed.

Lemma writes_bind {A B} (R1 : A -> list stmt -> Prop)
    (R2 : A -> B -> list stmt -> Prop) (R : B -> list stmt -> Prop)
    (m : M A) (f : A -> M B) :
  writes R1 m -> (forall a, writes (R2 a) (f a)) ->
  (forall a b n1 n2, R1 a n1 -> R2 a b n2 -> R b (n1 ++ n2)) ->
  writes R (m ≫= f).
Proof.
  intros Hm Hf HR w b w' H. apply bind_ok in H as (a & w1 & H1 & H2).
  destruct (Hm _ _ _ H1) as (n1 & E1 & Hn1).
  destruct (Hf a _ _ _ H2) as (n2 & E2 & Hn2).
  exists (n1 ++ n2). split; [by rewrite E2, E1, app_assoc | eauto].
Qed.

Lemma writes_weaken {A} (R R' : A -> list stmt -> Prop) (m : M A) :
  writes R m -> (forall a n, R a n -> R' a n) -> writes R' m.
Proof.
  intros Hm HR w a w' H. destruct (Hm _ _ _ H) as (n & E & Hn). eauto.
Qed.

Lemma writes_spec {A} (Q : A -> Prop) (P : stmt -> Prop) (m : M A) :
  spec Q P m -> writes (fun a n => Q a /\ Forall P n) m.
Proof.
  intros Hm w a w' H. destruct (Hm _ _ _ H) as [Ha [n [E F]]]. eauto.
Qed.

(** A loop: [Inv] relates the variables of the loop to what the turns so far
    have appended. *)
Lemma writes_foldM {A S} (Inv : list A -> S -> list stmt -> Prop)
    (f : S -> A -> M S) l :
  (forall seen x rest s acc,
     l = seen ++ x :: rest -> Inv seen s acc ->
     writes (fun s' n => Inv (seen ++ [x]) s' (acc ++ n)) (f s x)) ->
  forall s, Inv [] s [] -> writes (Inv l) (foldM f l s).
Proof.
  intros Hf s Hs.
  assert (G : forall rest seen s acc,
             l = seen ++ rest -> Inv seen s acc ->
             forall w s' w', foldM f rest s w = Ok s' w' ->
             exists n, dot w' = dot w ++ n /\ Inv l s' (acc ++ n)).
  { induction rest as [|x rest IH]; intros seen s0 acc El H0 w s' w' H.
    - rewrite app_nil_r in El. subst seen. apply mret_ok in H as [<- <-].
      exists []. by rewrite !app_nil_r.
    - cbn [foldM] in H. apply bind_ok in H as (s1 & w1 & H1 & H2).
      destruct (Hf seen x rest s0 acc El H0 _ _ _ H1) as (n1 & E1 & Hn1).
      assert (El' : l = (seen ++ [x]) ++ rest) by (by rewrite <- app_assoc).
      destruct (IH _ _ _ El' Hn1 _ _ _ H2) as (n2 & E2 & Hn2).
      exists (n1 ++ n2). split; [by rewrite E2, E1, app_assoc|].
      by rewrite app_assoc. }
  intros w s' w' H. exact (G l [] s [] eq_refl Hs w s' w' H).
Qed.

(** ** What one function contributes *)

Lemma with_color_app c g1 g2 :
  with_color c (g1 ++ g2) = with_color c g1 ++ with_color c g2.
Proof. apply List.filter_app. Qed.

Lemma in_with_color c g s :
  In s (with_color c g) <-> exists tail head, s = Edge tail head c /\ In s g.
Proof.
  unfold with_color. rewrite filter_In. split.
  - intros [Hin Hs]. destruct s as [|t h c']; [discriminate|].
    apply bool_decide_eq_true in Hs. subst. eauto.
  - intros (t & h & -> & Hin). split; [done|]. by apply bool_decide_eq_true.
Qed.

Lemma with_color_only c cs index g :
  only cs index g -> ~ In c cs -> with_color c g = [].
Proof.
  intros Ho Hc. destruct (with_color c g) as [|s l] eqn:E; [done|].
  assert (Hs : In s (with_color c g)) by (rewrite E; by left).
  apply in_with_color in Hs as (t & h & -> & Hin).
  destruct (Ho _ _ _ Hin) as [_ Hin']. by destruct Hc.
Qed.

Lemma only_nil cs index : only cs index [].
Proof. intros t h c []. Qed.

Lemma only_app cs index g1 g2 :
  only cs index g1 -> only cs index g2 -> only cs index (g1 ++ g2).
Proof.
  intros H1 H2 t h c Hin. apply in_app_or in Hin as [Hin|Hin]; eauto.
Qed.

Lemma only_nodes cs index g :
  (forall s, In s g -> exists id label, s = Node id label) -> only cs index g.
Proof. intros H t h c Hin. by destruct (H _ Hin) as (? & ? & ?). Qed.

Lemma only_weaken cs cs' index g :
  only cs index g -> (forall c, In c cs -> In c cs') -> only cs' index g.
Proof. intros H Hc t h c Hin. destruct (H _ _ _ Hin). auto. Qed.

(** Inversion of the runs of the small steps. *)
Ltac inv_step H :=
  match type of H with
  | emit _ _ = Ok _ _ => apply emit_ok in H
  | lift _ _ = Ok _ _ => apply lift_ok in H as [H ->]
  | mret _ _ = Ok _ _ => apply mret_ok in H as [H <-]
  | _ => idtac
  end.

Ltac inv_run H :=
  repeat (let a := fresh "a" in
          let w := fresh "w" in
          let H1 := fresh "H" in
          apply bind_ok in H as (a & w & H1 & H); inv_step H1);
  inv_step H.

Ltac dots :=
  repeat match goal with
         | H : dot ?w = _ |- context [dot ?w] => rewrite H
         end.

Section Block.
Variable py_eval : str -> option str.
Variables (fn : list str) (index : nat).

(** The statements of one call edge. *)
Lemma call_step_ok (raw : bool) call seen w s' w' :
  ((if raw then name ← lift (getitem fn (Z.of_nat index));
                emit (Node index name)
    else mret tt);;
   calledFuncIndex ← lift (index_of_func fn call);
   emit (Node calledFuncIndex call);;
   emit (Edge index calledFuncIndex FuncCall);;
   mret (call :: seen)) w = Ok s' w' ->
  exists nodes h,
    s' = call :: seen /\ fn !! h = Some call /\
    dot w' = dot w ++ nodes ++ [Edge index h FuncCall] /\
    (forall s, In s nodes -> exists id label, s = Node id label).
Proof.
  intros H. apply bind_ok in H as ([] & w1 & H1 & H).
  assert (exists pre, dot w1 = dot w ++ pre /\
            forall s, In s pre -> exists id label, s = Node id label)
    as (pre & E1 & Hpre).
  { destruct raw.
    - inv_run H1. exists [Node index a]. split; [done|].
      intros s [<- | []]. eauto.
    - inv_run H1. exists []. split; [by rewrite app_nil_r | intros s []]. }
  inv_run H. subst s'. apply list_index_lookup in H0.
  exists (pre ++ [Node a call]), a. split_and!; [done | done | |].
  - rewrite H3, H2, E1. by rewrite <- !app_assoc.
  - intros s Hs. apply in_app_or in Hs as [Hs | [<- | []]]; eauto.
Qed.

Lemma addCallNamesToGraph_writes code_body removeList sa raw :
  writes (fun _ n => only [FuncCall] index n /\ NoDup (with_color FuncCall n))
         (addCallNamesToGraph fn index code_body removeList sa raw).
Proof.
  unfold addCallNamesToGraph.
  eapply writes_bind with
    (R1 := fun (seen : list str) n =>
             only [FuncCall] index n /\ NoDup (with_color FuncCall n))
    (R2 := fun _ _ n => n = []).
  - eapply writes_weaken.
    + apply (writes_foldM
               (fun (_ : list str) (seen : list str) acc =>
                  only [FuncCall] index acc /\
                  NoDup (with_color FuncCall acc) /\
                  forall h, In (Edge index h FuncCall) acc ->
                            exists call, fn !! h = Some call /\ In call seen)).
      * intros _ call _ seen acc _ (Ho & Hnd & Hseen).
        assert (Hsame : writes (fun s' n =>
                  only [FuncCall] index (acc ++ n) /\
                  NoDup (with_color FuncCall (acc ++ n)) /\
                  forall h, In (Edge index h FuncCall) (acc ++ n) ->
                            exists call, fn !! h = Some call /\ In call s')
                  (mret seen)).
        { apply writes_ret. by rewrite app_nil_r. }
        destruct (negb (mem call fn)); [exact Hsame|].
        destruct (mem call seen) eqn:Hcs; [exact Hsame|].
        destruct (mem call removeList); [exact Hsame|].
        destruct (sa && _); [exact Hsame|].
        clear Hsame. intros w s' w' H.
        apply call_step_ok in H as (nodes & h & -> & Hh & E & Hnodes).
        exists (nodes ++ [Edge index h FuncCall]). split; [done|].
        assert (Hnew : only [FuncCall] index (nodes ++ [Edge index h FuncCall])).
        { apply only_app; [by apply only_nodes|].
          intros t h' c [[= <- <- <-] | []]. split; [done | by left]. }
        split_and!.
        -- by apply only_app.
        -- rewrite !with_color_app.
           rewrite (with_color_only FuncCall [] index nodes);
             [|by apply only_nodes | intros []].
           simpl.
           apply NoDup_app. split_and!; [done | | apply NoDup_singleton].
           intros s Hs. apply list_elem_of_In in Hs.
           apply in_with_color in Hs as (t & h' & -> & Hin).
           intros Hs. apply list_elem_of_In in Hs as [[= -> ->] | []].
           destruct (Hseen _ Hin) as (call' & Hh' & Hin').
           rewrite Hh in Hh'. injection Hh' as <-.
           unfold mem in Hcs. apply bool_decide_eq_false in Hcs.
           by apply Hcs, list_elem_of_In.
        -- intros h' Hin. apply in_app_or in Hin as [Hin|Hin].
           ++ destruct (Hseen _ Hin) as (call' & ? & ?).
              exists call'. split; [done | by right].
           ++ apply in_app_or in Hin as [Hin | [[= <-] | []]].
              ** by destruct (Hnodes _ Hin) as (? & ? & ?).
              ** exists call. split; [done | by left].
      * split_and!; [apply only_nil | constructor | intros h []].
    + intros seen n (? & ? & _). done.
  - intros seen. apply writes_ret. reflexivity.
  - intros seen [] n1 n2 H ->. by rewrite app_nil_r.
Qed.

(** The statements of one indirect-member edge. *)
Lemma indirect_step_ok call seen w s' w' :
  (name ← lift (getitem fn (Z.of_nat index));
   emit (Node index name);;
   calledFuncIndex ← lift (index_of_func fn call);
   emit (Node calledFuncIndex call);;
   emit (Edge index calledFuncIndex IndirectMember);;
   mret (call :: seen)) w = Ok s' w' ->
  exists nodes h,
    s' = call :: seen /\ fn !! h = Some call /\
    dot w' = dot w ++ nodes ++ [Edge index h IndirectMember] /\
    (forall s, In s nodes -> exists id label, s = Node id label).
Proof.
  intros H. inv_run H. subst s'.
  match goal with
  | Hn : getitem _ _ = Val ?name, Hi : index_of_func _ _ = Val ?h |- _ =>
      apply list_index_lookup in Hi;
      exists [Node index name; Node h call], h
  end.
  split_and!; [done | done | |].
  - dots. by rewrite <- !app_assoc.
  - intros s [<- | [<- | []]]; eauto.
Qed.

Lemma addIndirectFunctionsToGraph_writes indirectFunctions :
  writes (fun _ n => only [IndirectMember] index n
                     /\ NoDup (with_color IndirectMember n))
         (addIndirectFunctionsToGraph fn index indirectFunctions).
Proof.
  unfold addIndirectFunctionsToGraph.
  eapply writes_bind with
    (R1 := fun (seen : list str) n =>
             only [IndirectMember] index n
             /\ NoDup (with_color IndirectMember n))
    (R2 := fun _ _ n => n = []).
  - eapply writes_weaken.
    + apply (writes_foldM
               (fun (_ : list str) (seen : list str) acc =>
                  only [IndirectMember] index acc /\
                  NoDup (with_color IndirectMember acc) /\
                  forall h, In (Edge index h IndirectMember) acc ->
                            exists call, fn !! h = Some call /\ In call seen)).
      * intros _ call _ seen acc _ (Ho & Hnd & Hseen).
        assert (Hsame : writes (fun s' n =>
                  only [IndirectMember] index (acc ++ n) /\
                  NoDup (with_color IndirectMember (acc ++ n)) /\
                  forall h, In (Edge index h IndirectMember) (acc ++ n) ->
                            exists call, fn !! h = Some call /\ In call s')
                  (mret seen)).
        { apply writes_ret. by rewrite app_nil_r. }
        destruct (negb (mem call fn)); [exact Hsame|].
        destruct (mem call seen) eqn:Hcs; [exact Hsame|].
        clear Hsame. intros w s' w' H.
        apply indirect_step_ok in H as (nodes & h & -> & H2 & E & Hnodes).
        exists (nodes ++ [Edge index h IndirectMember]). split; [done|].
        assert (Hnew : only [IndirectMember] index
                         (nodes ++ [Edge index h IndirectMember])).
        { apply only_app; [by apply only_nodes|].
          intros t h' c [[= <- <- <-] | []]. split; [done | by left]. }
        split_and!.
        -- by apply only_app.
        -- rewrite !with_color_app.
           rewrite (with_color_only IndirectMember [] index nodes);
             [|by apply only_nodes | intros []].
           simpl.
           apply NoDup_app. split_and!; [done | | apply NoDup_singleton].
           intros s Hs. apply list_elem_of_In in Hs.
           apply in_with_color in Hs as (t & h' & -> & Hin).
           intros Hs. apply list_elem_of_In in Hs as [[= -> ->] | []].
           destruct (Hseen _ Hin) as (call' & Hh' & Hin').
           rewrite H2 in Hh'. injection Hh' as <-.
           unfold mem in Hcs. apply bool_decide_eq_false in Hcs.
           by apply Hcs, list_elem_of_In.
        -- intros h' Hin. apply in_app_or in Hin as [Hin|Hin].
           ++ destruct (Hseen _ Hin) as (call' & ? & ?).
              exists call'. split; [done | by right].
           ++ apply in_app_or in Hin as [Hin | [[= <-] | []]].
              ** by destruct (Hnodes _ Hin) as (? & ? & ?).
              ** exists call. split; [done | by left].
      * split_and!; [apply only_nil | constructor | intros h []].
    + intros seen n (? & ? & _). done.
  - intros seen. apply writes_ret. reflexivity.
  - intros seen [] n1 n2 H ->. by rewrite app_nil_r.
Qed.

Lemma transitions_leads func_name transitionList :
  spec (fun _ => True)
       (leads fn index [ActionFunc; ActionFuncInit]
              (fun x => In x transitionList))
       (foldM (fun _ t => addFunctionTransitionToGraph fn index func_name t)
              transitionList tt).
Proof.
  apply spec_foldM; [|done]. intros [] t Ht _.
  unfold addFunctionTransitionToGraph.
  destruct (index_of_func fn t) as [funcIndex|] eqn:E; [|by apply spec_print].
  apply list_index_lookup in E.
  apply spec_seq; [by apply spec_emit|].
  apply spec_seq; [by apply spec_emit|].
  apply spec_emit; [|done]. split_and!; [done | | by exists t].
  destruct (endswith _ _); [right; by left | by left].
Qed.

Lemma callbacks_leads code_body transitionList :
  spec (fun _ => True)
       (leads fn index [Callback] (fun x => ~ In x transitionList))
       (addCallbacksToGraph fn index code_body transitionList).
Proof.
  unfold addCallbacksToGraph. apply spec_seq; [|by apply spec_ret].
  apply spec_foldM; [|done]. intros seen call _ _.
  destruct (split1 _ _) as [|? [|? [|? ?]]]; try by apply spec_lift.
  apply spec_foldM; [|done]. intros seen' cb _ _.
  destruct (mem cb transitionList) eqn:Hm; [by apply spec_ret|].
  apply spec_bind_lift. intros calledFuncIndex E.
  apply list_index_lookup in E.
  apply spec_seq; [by apply spec_emit|].
  apply spec_seq; [|by apply spec_ret].
  apply spec_emit; [|done]. split_and!; [done | by left |].
  exists cb. split; [done|]. intros Hin.
  unfold mem in Hm. apply bool_decide_eq_false in Hm.
  by apply Hm, list_elem_of_In.
Qed.

Lemma leads_only cs T n :
  Forall (leads fn index cs T) n -> only cs index n.
Proof.
  intros F t h c Hin. rewrite Forall_forall in F.
  apply list_elem_of_In in Hin. destruct (F _ Hin) as (? & ? & _). done.
Qed.

Lemma leads_target cs T n t h c :
  Forall (leads fn index cs T) n -> In (Edge t h c) n ->
  exists x, fn !! h = Some x /\ T x.
Proof.
  intros F Hin. rewrite Forall_forall in F.
  apply list_elem_of_In in Hin. destruct (F _ Hin) as (_ & _ & ?). done.
Qed.

Lemma in_parts {A} (x : A) n0 n1 n2 n3 n4 :
  In x (n0 ++ n1 ++ n2 ++ n3 ++ n4) ->
  In x n0 \/ In x n1 \/ In x n2 \/ In x n3 \/ In x n4.
Proof.
  intros H. repeat (apply in_app_or in H as [H|H]; [tauto|]). tauto.
Qed.

(** The four kinds of edges of one function, one after the other. *)
Lemma block_compose (T : str -> Prop) n0 n1 n2 n3 n4 :
  (forall s, In s n0 -> exists id label, s = Node id label) ->
  Forall (leads fn index [ActionFunc; ActionFuncInit] T) n1 ->
  only [FuncCall] index n2 -> NoDup (with_color FuncCall n2) ->
  Forall (leads fn index [Callback] (fun x => ~ T x)) n3 ->
  only [IndirectMember] index n4 -> NoDup (with_color IndirectMember n4) ->
  block_ok index (n0 ++ n1 ++ n2 ++ n3 ++ n4).
Proof.
  intros H0 H1 H2 N2 H3 H4 N4.
  assert (O0 : forall cs, only cs index n0) by (intros; by apply only_nodes).
  assert (O1 := leads_only _ _ _ H1). assert (O3 := leads_only _ _ _ H3).
  assert (Hin : forall t h c,
             In (Edge t h c) (n0 ++ n1 ++ n2 ++ n3 ++ n4) ->
             t = index /\
             (In (Edge t h c) n1 /\ (c = ActionFunc \/ c = ActionFuncInit)
              \/ In (Edge t h c) n2 /\ c = FuncCall
              \/ In (Edge t h c) n3 /\ c = Callback
              \/ In (Edge t h c) n4 /\ c = IndirectMember)).
  { intros t h c Hin. apply in_parts in Hin as [Hin|[Hin|[Hin|[Hin|Hin]]]].
    - by destruct (H0 _ Hin) as (? & ? & ?).
    - destruct (O1 _ _ _ Hin) as [-> [<- | [<- | []]]]; tauto.
    - destruct (H2 _ _ _ Hin) as [-> [<- | []]]; tauto.
    - destruct (O3 _ _ _ Hin) as [-> [<- | []]]; tauto.
    - destruct (H4 _ _ _ Hin) as [-> [<- | []]]; tauto. }
  assert (Hempty : forall c cs n, only cs index n -> ~ In c cs ->
                                 with_color c n = [])
    by (intros; by eapply with_color_only).
  assert (E0 : forall c, with_color c n0 = [])
    by (intros; apply (Hempty c [] n0); [apply O0 | intros []]).
  split_and!.
  - intros t h c Hi. by destruct (Hin _ _ _ Hi).
  - rewrite !with_color_app, (E0 FuncCall).
    rewrite (Hempty FuncCall _ n1 O1), (Hempty FuncCall _ n3 O3),
      (Hempty FuncCall _ n4 H4) by (intros Hc; simpl in Hc; intuition discriminate).
    simpl. by rewrite app_nil_r.
  - rewrite !with_color_app, (E0 IndirectMember).
    rewrite (Hempty IndirectMember _ n1 O1), (Hempty IndirectMember _ n2 H2),
      (Hempty IndirectMember _ n3 O3) by (intros Hc; simpl in Hc; intuition discriminate).
    done.
  - intros t h Hcb.
    destruct (Hin _ _ _ Hcb) as [-> [[_ [|]]|[[_ ?]|[[Hc _]|[_ ?]]]]];
      try discriminate.
    destruct (leads_target _ _ _ _ _ _ H3 Hc) as (x & Hx & HT).
    split; intros Htr;
      destruct (Hin _ _ _ Htr) as [_ [[Ht _]|[[_ ?]|[[_ ?]|[_ ?]]]]];
      try discriminate;
      destruct (leads_target _ _ _ _ _ _ H1 Ht) as (x' & Hx' & HT');
      rewrite Hx in Hx'; injection Hx' as <-; by apply HT.
Qed.

Lemma block_ok_nil : block_ok index [].
Proof.
  split_and!; [intros ? ? ? [] | apply NoDup_nil_2 | apply NoDup_nil_2
              | intros ? ? []].
Qed.

Lemma process_function_block a func_name :
  func_names a = fn ->
  writes (fun _ n => block_ok index n)
         (process_function py_eval a index func_name).
Proof.
  intros Hfn w [] w' H. unfold process_function in H.
  destruct (mem func_name (removeList a)).
  { apply mret_ok in H as [_ <-]. exists []. rewrite app_nil_r.
    split; [done | apply block_ok_nil]. }
  apply bind_ok in H as ([] & w0 & H0 & H).
  assert (exists n0, dot w0 = dot w ++ n0 /\
            forall s, In s n0 -> exists id label, s = Node id label)
    as (n0 & E0 & Hn0).
  { destruct (loners a); inv_run H0.
    - exists [Node index func_name]. split; [done|].
      intros s [<- | []]. eauto.
    - exists []. split; [by rewrite app_nil_r | intros s []]. }
  unfold function_edges in H. rewrite Hfn in H.
  apply bind_ok in H as (code_body & ? & Hb & H). apply lift_ok in Hb as [_ ->].
  apply bind_ok in H as (tl & wt & Ht & H).
  apply (spec_adds _ _ _ _ _ _ (transitions_of_quiet py_eval (fun _ => False)
                                  a code_body)) in Ht.
  apply adds_quiet in Ht.
  apply bind_ok in H as ([] & w1 & H1 & H).
  destruct (transitions_leads func_name _ _ _ _ H1) as [_ (n1 & E1 & F1)].
  apply bind_ok in H as ([] & w2 & H2 & H).
  destruct (addCallNamesToGraph_writes _ _ _ _ _ _ _ H2) as (n2 & E2 & O2 & N2).
  apply bind_ok in H as ([] & w3 & H3 & H).
  destruct (callbacks_leads _ _ _ _ _ H3) as [_ (n3 & E3 & F3)].
  apply bind_ok in H as (ind & wi & Hi & H).
  apply (spec_adds _ _ _ _ _ _ (getIndirectFunctionsInFunc_spec py_eval
           (fun _ => False) _ _ _ _ _)) in Hi.
  apply adds_quiet in Hi.
  destruct (addIndirectFunctionsToGraph_writes _ _ _ _ H) as (n4 & E4 & O4 & N4).
  exists (n0 ++ n1 ++ n2 ++ n3 ++ n4). split.
  - rewrite E4, Hi, E3, E2, E1, Ht, E0. by rewrite <- !app_assoc.
  - by eapply block_compose.
Qed.

End Block.

(** ** The graph of a run *)

Lemma graph_extend tails g index new :
  graph_ok tails g -> block_ok index new -> ~ In index tails ->
  graph_ok (tails ++ [index]) (g ++ new).
Proof.
  intros (Gt & Gc & Gi & Gx) (Bt & Bc & Bi & Bx) Hfresh.
  assert (Hdisj : forall c s,
             In s (with_color c g) -> In s (with_color c new) -> False).
  { intros c s H1 H2. apply in_with_color in H1 as (t & h & -> & H1).
    apply in_with_color in H2 as (_ & _ & _ & H2).
    apply Gt in H1. apply Bt in H2. by subst. }
  split_and!.
  - intros t h c Hin. apply in_or_app.
    apply in_app_or in Hin as [Hin|Hin]; [left; eauto|].
    right. left. symmetry. eauto.
  - rewrite with_color_app. apply NoDup_app. split_and!; [done | | done].
    intros s H1 H2. apply list_elem_of_In in H1, H2. eauto.
  - rewrite with_color_app. apply NoDup_app. split_and!; [done | | done].
    intros s H1 H2. apply list_elem_of_In in H1, H2. eauto.
  - intros t h Hcb.
    assert (Hcase : forall c, In (Edge t h c) (g ++ new) ->
                              In (Edge t h c) g /\ In t tails
                              \/ In (Edge t h c) new /\ t = index).
    { intros c Hin. apply in_app_or in Hin as [Hin|Hin]; [left|right]; eauto. }
    destruct (Hcase _ Hcb) as [[Hg Ht]|[Hn ->]].
    + destruct (Gx _ _ Hg) as [G1 G2].
      split; intros Htr; destruct (Hcase _ Htr) as [[? _]|[_ ->]]; done.
    + destruct (Bx _ _ Hn) as [B1 B2].
      split; intros Htr; destruct (Hcase _ Htr) as [[_ ?]|[? _]]; done.
Qed.

Lemma graph_ok_nodes tails n0 g :
  (forall s, In s n0 -> exists id label, s = Node id label) ->
  graph_ok tails g -> graph_ok tails (n0 ++ g).
Proof.
  intros Hn (Gt & Gc & Gi & Gx).
  assert (Hin : forall t h c, In (Edge t h c) (n0 ++ g) -> In (Edge t h c) g).
  { intros t h c Hin. apply in_app_or in Hin as [Hin|Hin]; [|done].
    by destruct (Hn _ Hin) as (? & ? & ?). }
  assert (E : forall c, with_color c n0 = [])
    by (intros; apply (with_color_only c [] 0%nat);
        [by apply only_nodes | intros []]).
  split_and!.
  - eauto.
  - by rewrite with_color_app, E.
  - by rewrite with_color_app, E.
  - intros t h Hcb. destruct (Gx _ _ (Hin _ _ _ Hcb)) as [G1 G2].
    split; intros Htr; apply Hin in Htr; done.
Qed.

Lemma enumerate_fst_NoDup {A} (l : list A) : NoDup (map fst (enumerate l)).
Proof.
  unfold enumerate. rewrite fst_zip by (by rewrite length_seq).
  apply NoDup_ListNoDup, List.seq_NoDup.
Qed.

Lemma emit_edges_graph py_eval a :
  writes (fun _ n => graph_ok (map fst (enumerate (func_names a))) n)
         (emit_edges py_eval a).
Proof.
  unfold emit_edges.
  apply (writes_foldM
           (fun seen (_ : unit) acc => graph_ok (map fst seen) acc)).
  - intros seen [index func_name] rest [] acc El Hacc.
    eapply writes_weaken;
      [apply (process_function_block py_eval (func_names a) index a func_name
                eq_refl)|].
    intros [] n Hn. rewrite map_app. apply graph_extend; [done | done |].
    pose proof (enumerate_fst_NoDup (func_names a)) as Hnd.
    rewrite El, map_app in Hnd. apply NoDup_app in Hnd as (_ & Hnd & _).
    intros Hin. apply (Hnd index); [by apply list_elem_of_In|].
    simpl. by left.
  - split_and!; [intros ? ? ? [] | apply NoDup_nil_2 | apply NoDup_nil_2
                | intros ? ? []].
Qed.

Lemma lifecycle_nodes_are_nodes func_names s :
  In s (lifecycle_nodes func_names) -> exists id label, s = Node id label.
Proof.
  unfold lifecycle_nodes. intros H. apply in_map_iff in H as (x & <- & _).
  eauto.
Qed.

(** The graph of a completed run: the lifecycle nodes, then what the
    functions contribute one after the other. *)
Lemma main_graph_ok py_eval loners_opt remove contents w' :
  main py_eval loners_opt remove contents world0 = Ok tt w' ->
  graph_ok (map fst (enumerate (capture_definition_names contents))) (dot w').
Proof.
  intros H. unfold main in H.
  apply bind_ok in H as (defs & w1 & H1 & H).
  apply bind_ok in H as (line_numbers & w2 & H2 & H).
  apply bind_ok in H as (enums & w3 & H3 & H).
  apply bind_ok in H as (func_prefix & w4 & H4 & H).
  apply bind_ok in H as (a & w5 & H5 & H6).
  apply (spec_adds _ _ _ _ _ _
           (setup_func_definitions_quiet (fun _ => False) _ _)) in H1.
  apply adds_quiet in H1. simpl in H1.
  apply lift_ok in H2 as [_ ->]. apply lift_ok in H3 as [_ ->].
  assert (Hdot := register_lifecycle_dot _ _ _ _ H4).
  rewrite H1 in Hdot. simpl in Hdot.
  destruct (analyse_spec (fun _ => False) _ _ _ _ _ _ _ _ _ _ _ H5)
    as [(Hfn & _) Ha].
  apply adds_quiet in Ha.
  destruct (emit_edges_graph py_eval a _ _ _ H6) as (n & E & Hn).
  rewrite E, Ha, Hdot. rewrite Hfn in Hn.
  apply graph_ok_nodes; [apply lifecycle_nodes_are_nodes | done].
Qed.

(** ** Nodes without the loners option *)

Lemma touched_app_l g1 g2 id : touched g1 id -> touched (g1 ++ g2) id.
Proof.
  intros (t & h & c & Hin & Hid). exists t, h, c. split; [|done].
  apply in_or_app. by left.
Qed.

Lemma touched_app_r g1 g2 id : touched g2 id -> touched (g1 ++ g2) id.
Proof.
  intros (t & h & c & Hin & Hid). exists t, h, c. split; [|done].
  apply in_or_app. by right.
Qed.

Lemma lazy_nodes_nil : lazy_nodes [].
Proof. intros id label []. Qed.

Lemma lazy_nodes_app g1 g2 :
  lazy_nodes g1 -> lazy_nodes g2 -> lazy_nodes (g1 ++ g2).
Proof.
  intros H1 H2 id label Hin. apply in_app_or in Hin as [Hin|Hin].
  - destruct (H1 _ _ Hin); [by left | right; by apply touched_app_l].
  - destruct (H2 _ _ Hin); [by left | right; by apply touched_app_r].
Qed.

(** Nodes at the ends of an edge, followed by that edge. *)
Lemma lazy_nodes_edge nodes tail head color :
  (forall s, In s nodes ->
     exists id label, s = Node id label /\ (id = tail \/ id = head)) ->
  lazy_nodes (nodes ++ [Edge tail head color]).
Proof.
  intros Hn id label Hin. right. exists tail, head, color. split.
  - apply in_or_app. right. by left.
  - apply in_app_or in Hin as [Hin | [? | []]]; [|discriminate].
    destruct (Hn _ Hin) as (id' & label' & [= <- <-] & Hid).
    destruct Hid; auto.
Qed.

Lemma wlazy_ret {A} (a : A) : wlazy_of (mret a).
Proof. apply writes_ret, lazy_nodes_nil. Qed.

Lemma wlazy_bind {A B} (m : M A) (f : A -> M B) :
  wlazy_of m -> (forall a, wlazy_of (f a)) -> wlazy_of (m ≫= f).
Proof.
  intros Hm Hf.
  apply (writes_bind (fun _ n => lazy_nodes n) (fun _ _ n => lazy_nodes n));
    [done | done |].
  intros. by apply lazy_nodes_app.
Qed.

Lemma wlazy_quiet {A} (Q : A -> Prop) (m : M A) :
  spec Q (fun _ => False) m -> wlazy_of m.
Proof.
  intros Hm w a w' H. apply (spec_adds _ _ _ _ _ _ Hm) in H.
  apply adds_quiet in H. exists []. rewrite app_nil_r.
  split; [done | apply lazy_nodes_nil].
Qed.

Lemma wlazy_foldM {A S} (f : S -> A -> M S) l :
  (forall s x, wlazy_of (f s x)) -> forall s, wlazy_of (foldM f l s).
Proof.
  intros Hf. induction l as [|x l IH]; intros s; simpl.
  - apply wlazy_ret.
  - apply wlazy_bind; [apply Hf | apply IH].
Qed.

Lemma mret_dot {A} (a b : A) w w' :
  (mret a : M A) w = Ok b w' -> a = b /\ dot w' = dot w ++ [].
Proof. intros H. apply mret_ok in H as [-> ->]. by rewrite app_nil_r. Qed.

Lemma lift_dot {A} (r : res A) w a w' :
  lift r w = Ok a w' -> r = Val a /\ dot w' = dot w ++ [].
Proof. intros H. apply lift_ok in H as [-> ->]. by rewrite app_nil_r. Qed.

(** What a run of emits has written. *)
Ltac dot_step H :=
  cbv beta in H;
  match type of H with
  | (_ ≫= _) _ = Ok _ _ => run_dots H
  | emit _ _ = Ok _ _ => apply emit_ok in H
  | lift _ _ = Ok _ _ => apply lift_dot in H as [? H]
  | mret _ _ = Ok _ _ => apply mret_dot in H as [? H]
  end
with run_dots H :=
  let a := fresh "a" in
  let w := fresh "w" in
  let H1 := fresh "H" in
  apply bind_ok in H as (a & w & H1 & H); dot_step H1; dot_step H.

(** A run of emits that writes nodes at the ends of an edge and then the
    edge. *)
Ltac lazy_block H w w' :=
  dot_step H;
  repeat match goal with
         | H1 : dot ?b = dot ?a ++ ?x, H2 : dot ?c = dot ?b ++ ?y |- _ =>
             rewrite H1, <- app_assoc in H2; clear H1
         end;
  match goal with
  | He : dot w' = dot w ++ ?l |- _ =>
      exists l; split; [exact He|];
      cbn [app];
      match goal with
      | |- lazy_nodes ?g =>
          match g with
          | context [Edge ?t ?h ?c] =>
              let id := fresh "id" in
              let label := fresh "label" in
              let Hin := fresh "Hin" in
              intros id label Hin; right; exists t, h, c;
              split; [simpl; tauto|];
              simpl in Hin;
              repeat (destruct Hin as [Hin|Hin];
                      [try discriminate; injection Hin as <- <-; auto|]);
              destruct Hin
          end
      end
  end.

Section Lazy.
Variable py_eval : str -> option str.

Lemma addFunctionTransitionToGraph_lazy fn index func_name t :
  wlazy_of (addFunctionTransitionToGraph fn index func_name t).
Proof.
  unfold addFunctionTransitionToGraph.
  destruct (index_of_func fn t) as [funcIndex|] eqn:E.
  - intros w a w' H. lazy_block H w w'.
  - apply (wlazy_quiet (fun _ => True)). by apply spec_print.
Qed.

Lemma addCallNamesToGraph_lazy fn index code_body removeList sa raw :
  wlazy_of (addCallNamesToGraph fn index code_body removeList sa raw).
Proof.
  unfold addCallNamesToGraph.
  apply wlazy_bind; [|intros; apply wlazy_ret].
  apply wlazy_foldM. intros seen call.
  destruct (negb (mem call fn)); [apply wlazy_ret|].
  destruct (mem call seen); [apply wlazy_ret|].
  destruct (mem call removeList); [apply wlazy_ret|].
  destruct (sa && _); [apply wlazy_ret|].
  intros w a w' H. destruct raw; lazy_block H w w'.
Qed.

Lemma addCallbacksToGraph_lazy fn index code_body transitionList :
  wlazy_of (addCallbacksToGraph fn index code_body transitionList).
Proof.
  unfold addCallbacksToGraph.
  apply wlazy_bind; [|intros; apply wlazy_ret].
  apply wlazy_foldM. intros seen call.
  destruct (split1 _ _) as [|? [|? [|? ?]]];
    try (apply (wlazy_quiet (fun _ => True)); by apply spec_lift).
  apply wlazy_foldM. intros seen' cb.
  destruct (mem cb transitionList); [apply wlazy_ret|].
  intros w a w' H. lazy_block H w w'.
Qed.

Lemma addIndirectFunctionsToGraph_lazy fn index indirectFunctions :
  wlazy_of (addIndirectFunctionsToGraph fn index indirectFunctions).
Proof.
  unfold addIndirectFunctionsToGraph.
  apply wlazy_bind; [|intros; apply wlazy_ret].
  apply wlazy_foldM. intros seen call.
  destruct (negb (mem call fn)); [apply wlazy_ret|].
  destruct (mem call seen); [apply wlazy_ret|].
  intros w a w' H. lazy_block H w w'.
Qed.

Lemma emit_edges_lazy a :
  loners a = false -> wlazy_of (emit_edges py_eval a).
Proof.
  intros Hl. unfold emit_edges. apply wlazy_foldM.
  intros [] [index func_name]. unfold process_function.
  destruct (mem func_name (removeList a)); [apply wlazy_ret|].
  rewrite Hl. apply wlazy_bind; [apply wlazy_ret|]. intros _.
  unfold function_edges.
  apply wlazy_bind; [apply (wlazy_quiet (fun _ => True)); by apply spec_lift|].
  intros code_body.
  apply wlazy_bind; [eapply wlazy_quiet, transitions_of_quiet|].
  intros transitionList.
  apply wlazy_bind.
  { apply wlazy_foldM. intros. apply addFunctionTransitionToGraph_lazy. }
  intros _. apply wlazy_bind; [apply addCallNamesToGraph_lazy|].
  intros _. apply wlazy_bind; [apply addCallbacksToGraph_lazy|].
  intros _.
  apply wlazy_bind; [eapply wlazy_quiet, getIndirectFunctionsInFunc_spec|].
  intros indirectFunctions. apply addIndirectFunctionsToGraph_lazy.
Qed.

Lemma lifecycle_nodes_lazy func_names : lazy_nodes (lifecycle_nodes func_names).
Proof.
  intros id label Hin. left. unfold lifecycle_nodes in Hin.
  apply in_map_iff in Hin as ([i n] & [= <- <-] & Hin).
  by apply filter_In in Hin as [_ Hin].
Qed.

Lemma main_lazy remove contents w' :
  main py_eval false remove contents world0 = Ok tt w' ->
  lazy_nodes (dot w').
Proof.
  intros H. unfold main in H.
  apply bind_ok in H as (defs & w1 & H1 & H).
  apply bind_ok in H as (line_numbers & w2 & H2 & H).
  apply bind_ok in H as (enums & w3 & H3 & H).
  apply bind_ok in H as (func_prefix & w4 & H4 & H).
  apply bind_ok in H as (a & w5 & H5 & H6).
  apply (spec_adds _ _ _ _ _ _
           (setup_func_definitions_quiet (fun _ => False) _ _)) in H1.
  apply adds_quiet in H1. simpl in H1.
  apply lift_ok in H2 as [_ ->]. apply lift_ok in H3 as [_ ->].
  assert (Hdot := register_lifecycle_dot _ _ _ _ H4).
  rewrite H1 in Hdot. simpl in Hdot.
  destruct (analyse_spec (fun _ => False) _ _ _ _ _ _ _ _ _ _ _ H5)
    as [(_ & _ & Hlo) Ha].
  apply adds_quiet in Ha.
  destruct (emit_edges_lazy a Hlo _ _ _ H6) as (n & E & Hn).
  rewrite E, Ha, Hdot.
  apply lazy_nodes_app; [apply lifecycle_nodes_lazy | done].
Qed.

End Lazy.

(** ** Lists without repetition *)

Lemma foldR_inv {A S} (Inv : S -> Prop) (f : S -> A -> res S) l :
  (forall s x s', In x l -> Inv s -> f s x = Val s' -> Inv s') ->
  forall s s', Inv s -> foldR f l s = Val s' -> Inv s'.
Proof.
  induction l as [|x l IH]; intros Hf s s' Hs H.
  - by injection H as <-.
  - cbn [foldR] in H. destruct (f s x) as [s1|] eqn:E; [|discriminate].
    apply (IH (fun s0 y s0' Hy => Hf s0 y s0' (or_intror Hy)) s1 s');
      [|exact H].
    by apply (Hf s x s1 (or_introl eq_refl)).
Qed.

Lemma NoDup_snoc_mem x (l : list str) :
  NoDup l -> NoDup (if mem x l then l else l ++ [x]).
Proof.
  intros Hl. unfold mem. case_bool_decide; [done|].
  apply NoDup_app. split_and!; [done | | apply NoDup_singleton].
  intros y Hy Hx. apply list_elem_of_In in Hx as [<- | []]. done.
Qed.

Lemma capture_action_call_arg_NoDup r arg content l :
  capture_action_call_arg r arg content = Val l -> NoDup l.
Proof.
  unfold capture_action_call_arg.
  apply (foldR_inv (fun l => NoDup l)); [|apply NoDup_nil_2].
  intros s x s' _ Hs H. destruct (getitem _ _); [|discriminate].
  injection H as <-. by apply NoDup_snoc_mem.
Qed.

Section NoRepetition.
Variable py_eval : str -> option str.

Lemma action_var_values_in_func_NoDup P code_body action_var macros enums :
  spec (fun l => NoDup l) P
       (action_var_values_in_func py_eval code_body action_var macros enums).
Proof.
  unfold action_var_values_in_func.
  destruct (negb _); [apply spec_ret, NoDup_nil_2|].
  destruct (spliced _); [|apply spec_unmodelled].
  apply spec_foldM; [|apply NoDup_nil_2]. intros transition x _ Ht.
  apply spec_bind_lift. intros part _.
  eapply spec_bind; [apply parseMacro_quiet|]. intros macroValue _.
  apply spec_ret. by apply NoDup_snoc_mem.
Qed.

(** Outside the array idiom the transitions found in a body hold no name
    twice. *)
Theorem transitions_of_NoDup (a : analysis) (code_body : str)
    (w : world) (transitionList : list str) (w' : world) :
  transitions_of py_eval a code_body w = Ok transitionList w' ->
  setupAction a || setAction a || negb (arrayActorFunc a) = true ->
  NoDup transitionList.
Proof.
  unfold transitions_of. intros H Hk.
  destruct (setupAction a).
  { apply lift_ok in H as [H _]. by eapply capture_action_call_arg_NoDup. }
  destruct (setAction a).
  { apply lift_ok in H as [H _]. by eapply capture_action_call_arg_NoDup. }
  destruct (arrayActorFunc a); [discriminate|].
  destruct (rawActorFunc a).
  - by destruct (action_var_values_in_func_NoDup (fun _ => True)
                   _ _ _ _ _ _ _ H).
  - apply mret_ok in H as [<- _]. apply NoDup_nil_2.
Qed.

(** The functions reached through members of one body: no name twice, none
    of the removal list. *)
Theorem getIndirectFunctionsInFunc_NoDup (code_body : str)
    (members : list str) (macros : MacrosContainer) (enums : EnumContainer)
    (removeList : list str) (w : world) (l : list str) (w' : world) :
  getIndirectFunctionsInFunc py_eval code_body members macros enums removeList w
  = Ok l w' ->
  NoDup l /\ (forall name, In name l -> ~ In name removeList) /\ dot w' = dot w.
Proof.
  intros H.
  assert (Hs : spec (fun l => NoDup l /\
                       forall name, In name l -> mem name removeList = false)
                    (fun _ => False)
                    (getIndirectFunctionsInFunc py_eval code_body members
                       macros enums removeList)).
  { unfold getIndirectFunctionsInFunc.
    apply spec_foldM; [|split; [apply NoDup_nil_2 | intros ? []]].
    intros acc member _ Hacc.
    eapply spec_bind; [apply action_var_values_in_func_quiet|].
    intros names _. apply spec_ret. clear member. revert acc Hacc.
    induction names as [|n names IH]; intros acc Hacc; simpl; [done|].
    apply IH. destruct (mem n acc) eqn:E1; simpl; [done|].
    destruct (mem n removeList) eqn:E2; simpl; [done|].
    destruct Hacc as [Hnd Hrm]. split.
    - apply NoDup_app. split_and!; [done | | apply NoDup_singleton].
      intros y Hy Hx. apply list_elem_of_In in Hx as [<- | []].
      unfold mem in E1. by apply bool_decide_eq_false in E1.
    - intros name Hn. apply in_app_or in Hn as [Hn | [<- | []]]; auto. }
  destruct (Hs _ _ _ H) as [[Hnd Hrm] Ha]. apply adds_quiet in Ha.
  split_and!; [done | | done].
  intros name Hn Hr. specialize (Hrm _ Hn). unfold mem in Hrm.
  apply bool_decide_eq_false in Hrm. by apply Hrm, list_elem_of_In.
Qed.

End NoRepetition.

(** ** Members that hold a function *)

Lemma getIndirectMemberFuncs_inv func_names code_body members :
  NoDup members -> ~ In actionIdentifier members ->
  let members' :=
    foldl (fun members x =>
             let member := default [] (group x 1) in
             let value := default [] (group x 2) in
             if str_eqb member $"this->actionFunc" then members
             else if mem value func_names && negb (mem member members)
                  then members ++ [member]
                  else members)
          members (finditer indirectCallRegexpr 2 code_body) in
  NoDup members' /\ ~ In actionIdentifier members'.
Proof.
  generalize (finditer indirectCallRegexpr 2 code_body) as l.
  intros l. revert members.
  induction l as [|x l IH]; intros members Hnd Hno; simpl; [done|].
  apply IH.
  - destruct (str_eqb _ _); [done|]. destruct (mem _ func_names); [|done].
    simpl. destruct (mem _ members) eqn:E; [done|]. simpl.
    apply NoDup_app. split_and!; [done | | apply NoDup_singleton].
    intros y Hy Hx. apply list_elem_of_In in Hx as [<- | []].
    unfold mem in E. by apply bool_decide_eq_false in E.
  - destruct (str_eqb _ _) eqn:Eq; [done|]. destruct (_ && _); [|done].
    intros Hin. apply in_app_or in Hin as [Hin | [Hin | []]]; [done|].
    unfold str_eqb in Eq. apply bool_decide_eq_false in Eq.
    by apply Eq.
Qed.

Lemma set_update_inv (s new : list str) :
  NoDup s -> ~ In actionIdentifier s -> ~ In actionIdentifier new ->
  NoDup (set_update s new) /\ ~ In actionIdentifier (set_update s new).
Proof.
  unfold set_update. revert s.
  induction new as [|x new IH]; intros s Hnd Hs Hnew; cbn [foldl]; [done|].
  apply IH.
  - by apply NoDup_snoc_mem.
  - destruct (mem x s); [done|]. intros Hin.
    apply in_app_or in Hin as [Hin | [Hx | []]]; [done|].
    apply Hnew. by left.
  - intros Hin. apply Hnew. by right.
Qed.

(** What [analyse] hands to the main loop: the members that hold a function
    are listed once and never include the action member, and every function
    has the body that [get_code_body] locates, so the lookup of the main loop
    finds it. *)
Lemma analyse_result lo rl contents fn ln macros enums func_prefix w a w' :
  analyse lo rl contents fn ln macros enums func_prefix w = Ok a w' ->
  NoDup (indirectMemberFuncs a) /\
  ~ In actionIdentifier (indirectMemberFuncs a) /\
  forall name, In name fn ->
    exists body, get_code_body fn ln contents name = Val body /\
                 functionBodies a !! name = Some body.
Proof.
  unfold analyse. intros H.
  apply bind_ok in H as ([] & w1 & _ & H).
  apply bind_ok in H as ([action_functions action_var] & w2 & _ & H).
  apply bind_ok in H as ([bodies members] & w3 & H3 & H).
  apply mret_ok in H as [<- _]. cbn [indirectMemberFuncs functionBodies].
  pose (Inv := fun (seen : list str) (s : gmap str str * list str)
                   (_ : list stmt) =>
          NoDup s.2 /\ ~ In actionIdentifier s.2 /\
          forall name, In name seen ->
            exists body, get_code_body fn ln contents name = Val body /\
                         s.1 !! name = Some body).
  assert (Hw : writes (Inv fn)
            (foldM (fun '(functionBodies, indirectMemberFuncs) func_name =>
                      code_body ← lift (get_code_body fn ln contents func_name);
                      mret (<[func_name := code_body]> functionBodies,
                            set_update indirectMemberFuncs
                              (getIndirectMemberFuncs fn code_body)))
                   fn (∅, []))).
  { subst Inv. apply writes_foldM.
    - intros seen func_name rest [fb im] acc _ (Hnd & Hno & Hb) w0 s' w0' H0.
      apply bind_ok in H0 as (code_body & ? & Hc & H0).
      apply lift_ok in Hc as [Hc ->]. apply mret_ok in H0 as [<- <-].
      exists []. split; [by rewrite app_nil_r|]. cbn [fst snd] in *.
      destruct (getIndirectMemberFuncs_inv fn code_body [] (NoDup_nil_2)
                  (fun H => H)) as [Hnd' Hno'].
      destruct (set_update_inv im _ Hnd Hno Hno') as [? ?].
      split_and!; [done | done |].
      intros name Hin. destruct (decide (name = func_name)) as [->|Hne].
      + exists code_body. by rewrite lookup_insert_eq.
      + apply in_app_or in Hin as [Hin | [<- | []]]; [|done].
        destruct (Hb _ Hin) as (body & ? & ?). exists body.
        by rewrite lookup_insert_ne.
    - split_and!; [apply NoDup_nil_2 | intros [] | intros ? []]. }
  subst Inv. destruct (Hw _ _ _ H3) as (_ & _ & Hnd & Hno & Hb). done.
Qed.

(** ** Captures of the matcher *)

Section Captures.
Variables (i : nat) (p : ascii -> bool).

Lemma caps_ok_insert j t c :
  caps_ok i p c -> (j = i -> forallb p t = true) ->
  caps_ok i p (<[j := Some t]> c).
Proof.
  intros Hc Ht u Hu. destruct (decide (j = i)) as [->|Hne].
  - destruct (decide (i < length c)%nat) as [Hlt|Hge].
    + rewrite list_lookup_insert_eq in Hu by done.
      injection Hu as <-. by apply Ht.
    + rewrite list_insert_ge in Hu by lia. by apply Hc.
  - rewrite list_lookup_insert_ne in Hu by done. by apply Hc.
Qed.

(** A successful match of [r] reads a prefix of the text, calls the rest of
    the pattern on what is left, and stores at position [i] only what a
    group stored there has read. *)
Lemma rmatch_caps r : forall s c k res,
  group_ok i p r -> rmatch r s c k = Some res -> caps_ok i p c ->
  exists pre s' c',
    s = pre ++ s' /\ k s' c' = Some res /\ caps_ok i p c' /\
    (all_chars p r -> forallb p pre = true).
Proof.
  induction r as [q| |a IHa b IHb|a IHa b IHb|g a IHa|j a IHa];
    intros s c k res Hg H Hc; cbn [rmatch] in H.
  - destruct s as [|x s']; [discriminate|].
    destruct (q x) eqn:Hq; [|discriminate].
    exists [x], s', c. split_and!; [done | done | done |].
    intros Hall. simpl. by rewrite (Hall x Hq).
  - exists [], s, c. by split_and!.
  - destruct Hg as [Hga Hgb].
    destruct (IHa _ _ _ _ Hga H Hc) as (pre1 & s1 & c1 & -> & H1 & Hc1 & Hp1).
    destruct (IHb _ _ _ _ Hgb H1 Hc1) as (pre2 & s2 & c2 & -> & H2 & Hc2 & Hp2).
    exists (pre1 ++ pre2), s2, c2. split_and!; [by rewrite app_assoc | done | done |].
    intros [Ha Hb]. rewrite forallb_app, Hp1, Hp2; done.
  - destruct Hg as [Hga Hgb].
    destruct (rmatch a s c k) as [r1|] eqn:E.
    + injection H as ->.
      destruct (IHa _ _ _ _ Hga E Hc) as (pre & s' & c' & ? & ? & ? & Hp).
      exists pre, s', c'. split_and!; try done. intros [? _]. auto.
    + destruct (IHb _ _ _ _ Hgb H Hc) as (pre & s' & c' & ? & ? & ? & Hp).
      exists pre, s', c'. split_and!; try done. intros [_ ?]. auto.
  - revert H. generalize (length s) at 1. intros n. revert s c Hc.
    induction n as [|n IHn]; intros s c Hc H.
    + exists [], s, c. by split_and!.
    + assert (Hmore : forall res',
                rmatch a s c
                  (fun s' c' =>
                     if (length s' <? length s)%nat
                     then (fix loop (n : nat) (s : str) (c : caps) {struct n} :=
                             match n with
                             | O => k s c
                             | S n' =>
                                 let again s' c' :=
                                   if (length s' <? length s)%nat
                                   then loop n' s' c' else None in
                                 if g then
                                   match rmatch a s c again with
                                   | Some r => Some r
                                   | None => k s c
                                   end
                                 else
                                   match k s c with
                                   | Some r => Some r
                                   | None => rmatch a s c again
                                   end
                             end) n s' c'
                     else None) = Some res' ->
                res' = res ->
                exists pre s' c',
                  s = pre ++ s' /\ k s' c' = Some res /\ caps_ok i p c' /\
                  (all_chars p (RStar g a) -> forallb p pre = true)).
      { intros res' E ->.
        destruct (IHa _ _ _ _ Hg E Hc) as (pre1 & s1 & c1 & -> & H1 & Hc1 & Hp1).
        destruct (length s1 <? length (pre1 ++ s1))%nat; [|discriminate].
        destruct (IHn _ _ Hc1 H1) as (pre2 & s2 & c2 & -> & H2 & Hc2 & Hp2).
        exists (pre1 ++ pre2), s2, c2.
        split_and!; [by rewrite app_assoc | done | done |].
        intros Ha. rewrite forallb_app, Hp1, Hp2; done. }
      cbv zeta in H. destruct g.
      * match type of H with
        | match ?m with _ => _ end = _ => destruct m as [r1|] eqn:E
        end.
        -- injection H as ->. by apply (Hmore res).
        -- exists [], s, c. by split_and!.
      * destruct (k s c) as [r1|] eqn:E.
        -- injection H as ->. exists [], s, c. by split_and!.
        -- by apply (Hmore res).
  - destruct Hg as [Hga Hj].
    destruct (IHa _ _ _ _ Hga H Hc) as (pre & s' & c' & -> & H1 & Hc1 & Hp).
    rewrite length_app, Nat.add_sub, take_app_length in H1.
    exists pre, s', (<[pred j := Some pre]> c').
    split_and!; [done | done | | done].
    apply caps_ok_insert; [done|]. intros Hi. apply Hp. by apply Hj.
Qed.

(** The text of the group stored at position [i] in a match. *)
Lemma match_caps r ngroups s m :
  group_ok i p r -> match_ r ngroups s = Some m -> caps_ok i p (m_groups m).
Proof.
  unfold match_. intros Hg H.
  destruct (rmatch r s (replicate ngroups None) (fun s' c' => Some (c', s')))
    as [[c rest]|] eqn:E; [|discriminate].
  injection H as <-. cbn [m_groups].
  destruct (rmatch_caps r _ _ _ _ Hg E) as (pre & s' & c' & _ & H & Hc & _).
  - intros t Ht. apply lookup_replicate in Ht as [? _]. discriminate.
  - by injection H as <- _.
Qed.

Lemma finditer_caps r ngroups s m :
  group_ok i p r -> In m (finditer r ngroups s) -> caps_ok i p (m_groups m).
Proof.
  intros Hg. unfold finditer. generalize 0%nat as skip. 
  induction s as [|x s IH]; intros skip Hin.
  - destruct skip; [|destruct Hin]. cbn [finditer_go] in Hin.
    destruct (match_ r ngroups []) eqn:E; [|destruct Hin].
    destruct Hin as [<- | []]. by eapply match_caps.
  - destruct skip as [|skip]; cbn [finditer_go] in Hin; [|by eapply IH].
    destruct (match_ r ngroups (x :: s)) eqn:E; [|by eapply IH].
    destruct Hin as [<- | Hin]; [by eapply match_caps | by eapply IH].
Qed.

End Captures.

(** ** Macros *)

Lemma lacks_lstrip_by x q s : lacks x s = true -> lacks x (lstrip_by q s) = true.
Proof.
  induction s as [|c s IH]; intros H; [done|].
  simpl in *. apply andb_true_iff in H as [Hc Hs].
  destruct (q c); [by apply IH|]. simpl. by rewrite Hc, Hs.
Qed.

Lemma lacks_rev x s : lacks x (rev s) = lacks x s.
Proof.
  unfold lacks. induction s as [|c s IH]; [done|].
  simpl. rewrite forallb_app, IH. simpl. rewrite andb_true_r. apply andb_comm.
Qed.

Lemma lacks_rstrip_by x q s : lacks x s = true -> lacks x (rstrip_by q s) = true.
Proof.
  intros H. unfold rstrip_by. rewrite lacks_rev.
  apply lacks_lstrip_by. by rewrite lacks_rev.
Qed.

Lemma lacks_strip_chars x chars s :
  lacks x s = true -> lacks x (strip_chars chars s) = true.
Proof.
  intros H. unfold strip_chars. by apply lacks_rstrip_by, lacks_lstrip_by.
Qed.

Lemma ch_eqb_eq a b : ch_eqb a b = true -> a = b.
Proof.
  destruct a as [[] [] [] [] [] [] [] []], b as [[] [] [] [] [] [] [] []];
    vm_compute; intros; congruence.
Qed.

Lemma ident_char_not_comma c : ident_char c = true -> not_char "," c = true.
Proof. destruct c as [[] [] [] [] [] [] [] []]; vm_compute; congruence. Qed.

(** The parameter group of the macro pattern never reads a comma. *)
Lemma macrosRegexpr_params : group_ok 1 (not_char ",") macrosRegexpr.
Proof.
  unfold macrosRegexpr, rseq, opt, plus, plus_lazy, lit, lit_char.
  cbn [foldr list_ascii_of_string group_ok all_chars pred].
  split_and!; try exact I; try discriminate.
  intros _. split_and!; try exact I.
  - by intros c <-%ch_eqb_eq.
  - apply ident_char_not_comma.
  - apply ident_char_not_comma.
  - by intros c <-%ch_eqb_eq.
Qed.

Lemma getMacrosDefinitions_params contents :
  map_Forall (fun _ m => (length (macro_params m) <= 1)%nat)
             (getMacrosDefinitions contents).
Proof.
  unfold getMacrosDefinitions.
  assert (Hall : forall x, In x (finditer macrosRegexpr 4 contents) ->
                           caps_ok 1 (not_char ",") (m_groups x)).
  { intros x Hx. eapply finditer_caps; [apply macrosRegexpr_params | exact Hx]. }
  revert Hall. generalize (finditer macrosRegexpr 4 contents) as l.
  assert (H0 : map_Forall (fun (_ : str) m => (length (macro_params m) <= 1)%nat)
                          (∅ : MacrosContainer)) by apply map_Forall_empty.
  revert H0. generalize (∅ : MacrosContainer) as acc.
  intros acc H0 l. revert acc H0.
  induction l as [|x l IH]; intros acc H0 Hall; [exact H0|].
  cbn [foldl]. apply IH; [|intros y Hy; apply Hall; by right].
  apply map_Forall_insert_2; [|exact H0]. cbn [macro_params].
  destruct (group x 2) as [aux|] eqn:E; [|simpl; lia].
  unfold group in E. cbn [pred] in E.
  destruct (m_groups x !! 1%nat) as [o|] eqn:E1; [|discriminate].
  simpl in E. subst o.
  pose proof (Hall x (or_introl eq_refl) aux E1) as Haux.
  cbn [list_ascii_of_string]. rewrite split_lacks; [simpl; lia|].
  by apply lacks_strip_chars, lacks_strip_chars.
Qed.

(** ** Calling a macro *)

Lemma getitem_lt {A} (l : list A) (i : nat) :
  (i < length l)%nat -> exists x, getitem l (Z.of_nat i) = Val x.
Proof.
  intros H. unfold getitem.
  destruct (Z.of_nat i <? 0) eqn:E; [apply Z.ltb_lt in E; lia|].
  replace ((0 <=? Z.of_nat i) && (Z.of_nat i <? Z.of_nat (length l)))
    with true by (symmetry; apply andb_true_iff; split;
                  [apply Z.leb_le | apply Z.ltb_lt]; lia).
  rewrite Nat2Z.id. destruct (lookup_lt_is_Some_2 l i H) as [x ->]. by exists x.
Qed.

Lemma getitem_ge {A} (l : list A) (i : nat) :
  (length l <= i)%nat -> getitem l (Z.of_nat i) = Err IndexError.
Proof.
  intros H. unfold getitem.
  destruct (Z.of_nat i <? 0) eqn:E; [apply Z.ltb_lt in E; lia|].
  replace (Z.of_nat i <? Z.of_nat (length l)) with false
    by (symmetry; apply Z.ltb_ge; lia).
  by rewrite andb_false_r.
Qed.

Section Arguments.
Context {S B : Type} (g : S -> B -> str -> S) (args : list str).

(** A loop that reads [args[i]] for each numbered element. *)
Let step := fun (s : S) '((i, x) : nat * B) =>
  arg ← getitem args (Z.of_nat i); Val (g s x arg).

Lemma foldR_getitem_enough l : forall k s,
  (k + length l <= length args)%nat ->
  exists s', foldR step (zip (seq k (length l)) l) s = Val s'.
Proof.
  induction l as [|x l IH]; intros k s H; [by exists s|].
  cbn [length seq zip zip_with foldR]. simpl in H.
  destruct (getitem_lt args k) as [a Ha]; [lia|].
  unfold step at 1. cbn. rewrite Ha. cbn.
  apply IH. lia.
Qed.

Lemma foldR_getitem_short l : forall k s,
  (k <= length args < k + length l)%nat ->
  foldR step (zip (seq k (length l)) l) s = Err IndexError.
Proof.
  induction l as [|x l IH]; intros k s H; [simpl in H; lia|].
  cbn [length seq zip zip_with foldR]. simpl in H.
  unfold step at 1. cbn.
  destruct (decide (k = length args)) as [->|Hne].
  - by rewrite getitem_ge.
  - destruct (getitem_lt args k) as [a ->]; [lia|]. cbn. apply IH. lia.
Qed.

End Arguments.

Lemma split_go_nonempty sep s : forall skip cur, split_go sep s skip cur <> [].
Proof.
  induction s as [|c s IH]; intros skip cur; cbn [split_go]; [done|].
  destruct skip; [|apply IH]. destruct (startswith sep (c :: s)); [done | apply IH].
Qed.

Lemma split_length sep s : (1 <= length (split sep s))%nat.
Proof.
  unfold split. pose proof (split_go_nonempty sep s 0 []) as H.
  destruct (split_go sep s 0 []); [done | simpl; lia].
Qed.

Section Calls.
Variable py_eval : str -> option str.

Lemma callMacro_enough self argsList enums w :
  (length (macro_params self) <= length argsList)%nat ->
  exists v w', callMacro py_eval self argsList enums w = Ok v w' /\
               dot w' = dot w.
Proof.
  intros H. unfold callMacro.
  destruct (foldR_getitem_enough
              (fun s x arg => replace x (getDefault enums arg arg) s)
              argsList (macro_params self) 0 (macro_body self))
    as [body Hbody]; [simpl; lia|].
  match goal with
  | |- context [lift (foldR ?f ?l ?s)] =>
      assert (E : foldR f l s = Val body) by exact Hbody
  end.
  rewrite E. unfold mbind, M_bind, lift.
  destruct (py_eval body); [by eexists _, _|].
  unfold print, mret, M_ret. by eexists _, _.
Qed.

Lemma callMacro_short self argsList enums w :
  (length argsList < length (macro_params self))%nat ->
  callMacro py_eval self argsList enums w = Raise IndexError w.
Proof.
  intros H. unfold callMacro.
  pose proof (foldR_getitem_short
                (fun s x arg => replace x (getDefault enums arg arg) s)
                argsList (macro_params self) 0 (macro_body self)) as Hbody.
  match goal with
  | |- context [lift (foldR ?f ?l ?s)] =>
      assert (E : foldR f l s = Err IndexError) by (apply Hbody; simpl; lia)
  end.
  rewrite E. by unfold mbind, M_bind, lift.
Qed.

(** X: [callMacro] reads one argument for each parameter of the macro: with
    fewer arguments than parameters it raises [IndexError] before it
    evaluates or prints anything, and otherwise it returns, without a
    statement added to the graph. *)
Theorem callMacro_arity self argsList enums w :
  ((length argsList < length (macro_params self))%nat /\
   callMacro py_eval self argsList enums w = Raise IndexError w) \/
  ((length (macro_params self) <= length argsList)%nat /\
   exists v w', callMacro py_eval self argsList enums w = Ok v w' /\
                dot w' = dot w).
Proof.
  destruct (decide (length argsList < length (macro_params self))%nat) as [H|H].
  - left. split; [done|]. by apply callMacro_short.
  - right. split; [lia|]. apply callMacro_enough. lia.
Qed.

(** X: the macros read from a source by [getMacrosDefinitions] never make
    [parseMacro] raise [IndexError]: a use of such a macro returns, or
    raises [ValueError] when the text of the call does not split into a
    name and its arguments; the graph is left as it was. *)
Theorem parseMacro_captured contents expr enums w :
  match parseMacro py_eval (getMacrosDefinitions contents) expr enums w with
  | Ok _ w' => dot w' = dot w
  | Raise e w' => e = ValueError /\ w' = w
  | _ => False
  end.
Proof.
  unfold parseMacro.
  destruct (match_ func_call_regexpr 1 expr) as [macroCall|].
  - destruct (split _ (first _)) as [|macroName [|macroArgs [|? ?]]];
      try (cbn; by split).
    destruct (getMacrosDefinitions contents !! macroName) as [macro|] eqn:E;
      [|by cbn].
    apply getMacrosDefinitions_params in E. cbv zeta.
    destruct (callMacro_enough macro
                (map strip (split (list_ascii_of_string ",") macroArgs)) enums w)
      as (v & w' & -> & Hw); [|done].
    rewrite length_map. pose proof (split_length (list_ascii_of_string ",") macroArgs).
    simpl in E. lia.
  - destruct (getMacrosDefinitions contents !! expr) as [macro|]; [|by cbn].
    unfold simpleExpand. destruct (py_eval (macro_body macro)); by cbn.
Qed.

End Calls.

(** X: a macro recorded by [getMacrosDefinitions] has at most one
    parameter: the parameter list of a definition is a single word between
    brackets. *)
Theorem captured_macro_one_parameter contents name m :
  getMacrosDefinitions contents !! name = Some m ->
  (length (macro_params m) <= 1)%nat.
Proof. intros H. by apply getMacrosDefinitions_params in H. Qed.
